(** * permit-github-webhook: the durable intake-and-retry relay

    A shallow embedding of the Redis-backed webhook relay (the final listing
    of the repository: [app.post("/github-membership")],
    [createPermitUserAssignRole], [removePermitUser],
    [processMembershipEvent], the [setInterval] retry sweep and the replay
    run from [app.listen]), followed by the properties of the relay. *)

From stdpp Require Import gmap strings list fin_maps pretty.

(** ** JavaScript values

    Request bodies are what [express.json()] / [express.urlencoded()] hand
    to the handler; [VUndefined] is what a property read yields when the
    property is absent. Numbers only matter through their truthiness, so an
    integer stands for them. *)

#[local] Unset Elimination Schemes.
Inductive value : Type :=
| VUndefined
| VNull
| VBool (b : bool)
| VNum (n : Z)
| VStr (s : string)
| VArr (items : list value)
| VObj (fields : list (string * value)).
#[local] Set Elimination Schemes.

Inductive error : Type :=
| TypeError (msg : string)
| Error (msg : string)
| Rejected (op : string).

(** [!v] is [negb (truthy v)]. *)
Definition truthy (v : value) : bool :=
  match v with
  | VUndefined | VNull => false
  | VBool b => b
  | VNum n => negb (n =? 0)%Z
  | VStr s => negb (String.eqb s EmptyString)
  | VArr _ | VObj _ => true
  end.

(** [v === "s"] for a string literal. *)
Definition strict_eq_str (v : value) (s : string) : bool :=
  match v with
  | VStr s' => String.eqb s' s
  | _ => false
  end.

(** Own property of an object literal; as with [JSON.parse], a later
    duplicate of a key shadows an earlier one. *)
Fixpoint field (k : string) (fields : list (string * value)) : value :=
  match fields with
  | [] => VUndefined
  | (k', v) :: rest =>
      match field k rest with
      | VUndefined => if String.eqb k k' then v else VUndefined
      | later => later
      end
  end.

(** [v.k] for the property names the relay reads ([action], [membership],
    [user], [role], [login], [id]): reading from [undefined] or [null]
    throws a TypeError, and none of those names exists on a primitive or an
    array. *)
Definition get_prop (v : value) (k : string) : error + value :=
  match v with
  | VUndefined | VNull =>
      inl (TypeError ("Cannot read properties of undefined/null: " +:+ k))
  | VObj fields => inr (field k fields)
  | VBool _ | VNum _ | VStr _ | VArr _ => inr VUndefined
  end.

(** ** Console output and backend calls *)

Inductive level : Type := LLog | LWarn | LError.

Inductive log_arg : Type :=
| Txt (s : string)
| Val (v : value)
| Err (e : error).

Record log_entry : Type := Console { lvl : level; args : list log_arg }.

Inductive call : Type :=
| CreateUser (key : value)
| AssignRole (user role : value) (tenant : string)
| DeleteUser (key : value).

(** ** The Redis store

    The relay only ever writes [JSON.stringify(req.body)] and reads it back
    through [JSON.parse]; the store is modelled as holding the body itself
    together with the absolute expiry instant (milliseconds, the unit of
    [Date.now()]). Redis keeps a key readable while the clock has not passed
    its expiry instant.

    The store is taken to be reachable: [redis.set], [redis.get],
    [redis.del] and [redis.keys] resolve. Everything below is about the
    relay in front of a working Redis. *)

Record entry : Type := Entry { payload : value; expires_at : Z }.

Definition live (now : Z) (e : entry) : bool := (now <=? expires_at e)%Z.

(** The glob ["event:*"]. *)
Definition event_pattern (k : string) : bool := String.prefix "event:" k.

(** [`event:${Date.now()}`] *)
Definition eventId (now : Z) : string := "event:" +:+ pretty now.

(** The policy backend: each call resolves with a value or rejects, and may
    change the backend's own state. *)
Record PermitApi (Pdp : Type) : Type := {
  createUser : value → Pdp → (error + value) * Pdp;
  assignRole : value → value → string → Pdp → (error + value) * Pdp;
  deleteUser : value → Pdp → (error + value) * Pdp
}.
Arguments createUser {Pdp} _ _ _.
Arguments assignRole {Pdp} _ _ _ _ _.
Arguments deleteUser {Pdp} _ _ _.

Record world (Pdp : Type) : Type := World {
  redis : gmap string entry;
  clock : Z;
  permit : Pdp;
  trace : list call
}.
Arguments World {Pdp} _ _ _ _.
Arguments redis {Pdp} _.
Arguments clock {Pdp} _.
Arguments permit {Pdp} _.
Arguments trace {Pdp} _.

(** Time passing between two handler runs. *)
Definition advance {Pdp} (d : Z) (w : world Pdp) : world Pdp :=
  World (redis w) (clock w + d)%Z (permit w) (trace w).

(** ** Async functions: state, exceptions and console output *)

Record outcome (Pdp A : Type) : Type := Outcome {
  result : error + A;
  after : world Pdp;
  printed : list log_entry
}.
Arguments Outcome {Pdp A} _ _ _.
Arguments result {Pdp A} _.
Arguments after {Pdp A} _.
Arguments printed {Pdp A} _.

Definition M (Pdp A : Type) : Type := world Pdp → outcome Pdp A.

Definition ret {Pdp A} (a : A) : M Pdp A := λ w, Outcome (inr a) w [].

Definition throw {Pdp A} (e : error) : M Pdp A := λ w, Outcome (inl e) w [].

Definition lift {Pdp A} (r : error + A) : M Pdp A := λ w, Outcome r w [].

Definition bind {Pdp A C} (m : M Pdp A) (f : A → M Pdp C) : M Pdp C :=
  λ w,
    match m w with
    | Outcome (inl e) w' out => Outcome (inl e) w' out
    | Outcome (inr a) w' out =>
        match f a w' with
        | Outcome r w'' out' => Outcome r w'' (out ++ out')
        end
    end.

(** [try { m } catch (error) { h error }] *)
Definition try_catch {Pdp A} (m : M Pdp A) (h : error → M Pdp A) : M Pdp A :=
  λ w,
    match m w with
    | Outcome (inl e) w' out =>
        match h e w' with
        | Outcome r w'' out' => Outcome r w'' (out ++ out')
        end
    | Outcome (inr a) w' out => Outcome (inr a) w' out
    end.

Notation "'let*' x ':=' m 'in' f" := (bind m (λ x, f))
  (at level 10, x name, m at level 100, f at level 200, only parsing).
Notation "m '>>' f" := (bind m (λ _, f))
  (at level 100, f at level 200, right associativity, only parsing).

(** Console calls. A template literal is recorded as its pieces, [Txt] for
    the text and [Val] for an interpolated value; the conversion of the
    value to a string is not carried out. It cannot fail on a primitive
    ([is_primitive] below); statements that depend on a line with an
    interpolated value being printed assume the value is one. *)
Definition console_log {Pdp} (a : list log_arg) : M Pdp unit :=
  λ w, Outcome (inr tt) w [Console LLog a].
Definition console_warn {Pdp} (a : list log_arg) : M Pdp unit :=
  λ w, Outcome (inr tt) w [Console LWarn a].
Definition console_error {Pdp} (a : list log_arg) : M Pdp unit :=
  λ w, Outcome (inr tt) w [Console LError a].

Definition Date_now {Pdp} : M Pdp Z := λ w, Outcome (inr (clock w)) w [].

(** [redis.set(key, data, "EX", seconds)] *)
Definition redis_set {Pdp} (key : string) (data : value) (seconds : Z)
  : M Pdp unit :=
  λ w,
    Outcome (inr tt)
      (World (<[key := Entry data (clock w + seconds * 1000)]> (redis w))
             (clock w) (permit w) (trace w))
      [].

(** [redis.get(key)]: [None] is the [null] reply. *)
Definition redis_get {Pdp} (key : string) : M Pdp (option value) :=
  λ w,
    Outcome
      (inr match redis w !! key with
           | Some e => if live (clock w) e then Some (payload e) else None
           | None => None
           end)
      w [].

Definition redis_del {Pdp} (key : string) : M Pdp unit :=
  λ w,
    Outcome (inr tt)
      (World (delete key (redis w)) (clock w) (permit w) (trace w)) [].

(** The keys that match ["event:*"] and have not expired. *)
Definition event_keys {Pdp} (w : world Pdp) : list string :=
  (map_to_list
     (filter (λ kv, event_pattern kv.1 && live (clock w) kv.2 = true)
             (redis w))).*1.

(** [redis.keys("event:*")] *)
Definition redis_keys {Pdp} : M Pdp (list string) :=
  λ w, Outcome (inr (event_keys w)) w [].

(** ** The relay *)

Section Relay.
Context {Pdp : Type} (api : PermitApi Pdp).

Definition permit_api_createUser (key : value) : M Pdp value :=
  λ w,
    let '(r, p) := createUser api key (permit w) in
    Outcome r (World (redis w) (clock w) p (trace w ++ [CreateUser key])) [].

Definition permit_api_assignRole (user role : value) (tenant : string)
  : M Pdp value :=
  λ w,
    let '(r, p) := assignRole api user role tenant (permit w) in
    Outcome r
      (World (redis w) (clock w) p (trace w ++ [AssignRole user role tenant]))
      [].

Definition permit_api_deleteUser (key : value) : M Pdp value :=
  λ w,
    let '(r, p) := deleteUser api key (permit w) in
    Outcome r (World (redis w) (clock w) p (trace w ++ [DeleteUser key])) [].

(** [if (!a || !b || !c) throw ...] is written as nested tests, in the
    order JavaScript evaluates them. *)
Definition createPermitUserAssignRole (body : value) : M Pdp unit :=
  let* membership := lift (get_prop body "membership") in
  if negb (truthy membership) then throw (Error "Invalid membership data")
  else
    let* user := lift (get_prop membership "user") in
    if negb (truthy user) then throw (Error "Invalid membership data")
    else
      let* role := lift (get_prop membership "role") in
      if negb (truthy role) then throw (Error "Invalid membership data")
      else
        let* githubUsername := lift (get_prop user "login") in
        let githubUserOrgRole := role in
        console_log [Txt "Creating Permit user: "; Val githubUsername;
                     Txt " with role: "; Val githubUserOrgRole] >>
        try_catch
          (let* userResponse := permit_api_createUser githubUsername in
           console_log [Txt "User created successfully in Permit:";
                        Val userResponse] >>
           let* userId := lift (get_prop userResponse "id") in
           let* roleResponse :=
             permit_api_assignRole userId githubUserOrgRole "default" in
           console_log [Txt "Role assigned successfully in Permit:";
                        Val roleResponse])
          (λ _,
             console_error
               [Txt "Error creating user or assigning role in Permit:"]).

Definition removePermitUser (body : value) : M Pdp unit :=
  let* membership := lift (get_prop body "membership") in
  if negb (truthy membership) then throw (Error "Invalid membership data")
  else
    let* user := lift (get_prop membership "user") in
    if negb (truthy user) then throw (Error "Invalid membership data")
    else
      let* githubUsername := lift (get_prop user "login") in
      console_log [Txt "Removing Permit user: "; Val githubUsername] >>
      try_catch
        (let* response := permit_api_deleteUser githubUsername in
         console_log [Txt "User removed successfully from Permit"])
        (λ _, console_error [Txt "Error removing user from Permit"]).

(** How the [switch] statement is left: by [break] / falling out of it, or
    by the [return] of the [member_invited] case. *)
Inductive completion : Type := Break | Return.

(** [switch (action) { ... }]: the cases are compared with [===]. *)
Definition switch_action (action body : value) : M Pdp completion :=
  if strict_eq_str action "member_invited" then
    console_log [Txt "Ignoring member_invited event."] >> ret Return
  else if strict_eq_str action "member_added" then
    console_log [Txt "User added to organization."] >>
    createPermitUserAssignRole body >> ret Break
  else if strict_eq_str action "member_removed" then
    console_log [Txt "User removed from organization."] >>
    removePermitUser body >> ret Break
  else
    console_warn [Txt "Unhandled action type:"; Val action] >> ret Break.

Definition processMembershipEvent (eventId : string) (body : value)
  : M Pdp unit :=
  let* action := lift (get_prop body "action") in
  if negb (truthy action) then
    console_error [Txt "Invalid event: "; Txt eventId]
  else
    try_catch
      (let* c := switch_action action body in
       match c with
       | Return => ret tt
       | Break => redis_del eventId
       end)
      (λ error,
         console_error [Txt "Error processing event "; Txt eventId;
                        Txt ":"; Err error]).

Record response : Type := Response { status : Z; json : string * string }.

(** [app.post("/github-membership", ...)] of the final listing. *)
Definition post_github_membership (req_body : value) : M Pdp response :=
  let* action := lift (get_prop req_body "action") in
  let* now := Date_now in
  let eventId := eventId now in
  redis_set eventId req_body 86400 >>
  if negb (truthy action) then
    ret (Response 400 ("error", "Missing action in request body"))
  else
    console_log [Txt "Received action: "; Val action] >>
    try_catch
      (processMembershipEvent eventId req_body >>
       ret (Response 200 ("message", "Event processed successfully")))
      (λ error,
         console_error [Txt "Error handling GitHub membership event:";
                        Err error] >>
         ret (Response 500 ("error", "Internal server error"))).

(** The same route in the first Redis listing of the repository, which
    tests [action] before it stores the event. *)
Definition post_github_membership_first (req_body : value) : M Pdp response :=
  let* action := lift (get_prop req_body "action") in
  if negb (truthy action) then
    ret (Response 400 ("error", "Missing action in request body"))
  else
    console_log [Txt "Received action: "; Val action] >>
    let* now := Date_now in
    let eventId := eventId now in
    redis_set eventId req_body 86400 >>
    try_catch
      (processMembershipEvent eventId req_body >>
       ret (Response 200 ("message", "Event processed successfully")))
      (λ error,
         console_error [Txt "Error handling GitHub membership event:";
                        Err error] >>
         ret (Response 500 ("error", "Internal server error"))).

(** The [for (const key of keys)] loop of the [setInterval] callback. *)
Fixpoint retry_each (keys : list string) : M Pdp unit :=
  match keys with
  | [] => ret tt
  | key :: rest =>
      let* eventData := redis_get key in
      match eventData with
      | Some body => processMembershipEvent key body
      | None => ret tt
      end >>
      retry_each rest
  end.

(** One firing of the [setInterval] callback. *)
Definition retry_sweep : M Pdp unit :=
  console_log [Txt "Retrying failed events from Redis..."] >>
  let* keys := redis_keys in
  retry_each keys.

(** The [for (const key of keys)] loop of the [app.listen] callback. *)
Fixpoint replay_each (keys : list string) : M Pdp unit :=
  match keys with
  | [] => ret tt
  | key :: rest =>
      let* eventData := redis_get key in
      match eventData with
      | Some body => processMembershipEvent key body
      | None => ret tt
      end >>
      replay_each rest
  end.

(** The replay run by the [app.listen] callback once the timer is set. *)
Definition recovery_replay (port : Z) : M Pdp unit :=
  console_log
    [Txt "Replaying pending events from Redis after server restart..."] >>
  let* keys := redis_keys in
  replay_each keys >>
  console_log [Txt "Server running at http://localhost:"; Val (VNum port)].

(** The timer: each firing happens some milliseconds after the previous
    handler run; a rejected callback does not stop the timer. *)
Definition run_sweeps (delays : list Z) (w : world Pdp) : world Pdp :=
  fold_left (λ w d, after (retry_sweep (advance d w))) delays w.

(** The route of [index.js], the relay without the store: the [switch] sits
    in the handler itself and the [member_invited] case answers at once. *)
Definition post_github_membership_index (req_body : value) : M Pdp response :=
  let* action := lift (get_prop req_body "action") in
  if negb (truthy action) then
    ret (Response 400 ("error", "Missing action in request body"))
  else
    console_log [Txt "Received action: "; Val action] >>
    try_catch
      (if strict_eq_str action "member_invited" then
         ret (Response 200 ("message", "Ignoring member_invited event"))
       else
         (if strict_eq_str action "member_added" then
            console_log [Txt "User added to organization."] >>
            createPermitUserAssignRole req_body
          else if strict_eq_str action "member_removed" then
            console_log [Txt "User removed from organization."] >>
            removePermitUser req_body
          else console_warn [Txt "Unhandled action type:"; Val action]) >>
         ret (Response 200 ("message", "Event processed successfully")))
      (λ error,
         console_error [Txt "Error handling GitHub membership event:";
                        Err error] >>
         ret (Response 500 ("error", "Internal server error"))).

(** What happens to a running server: a request arrives, the retry timer
    fires, or time passes. Handler runs are taken one at a time, each to
    completion. *)
Inductive event : Type :=
| Request (body : value)
| TimerFires
| Elapse (ms : N).

Definition handle (ev : event) (w : world Pdp) : world Pdp :=
  match ev with
  | Request body => after (post_github_membership body w)
  | TimerFires => after (retry_sweep w)
  | Elapse ms => advance (Z.of_N ms) w
  end.

(** A server life: the replay of [app.listen], then the events in turn. *)
Definition serve (port : Z) (events : list event) (w : world Pdp)
  : world Pdp :=
  fold_left (λ w ev, handle ev w) events (after (recovery_replay port w)).

End Relay.

(** ** Derived notions used in the statements *)

(** The guard [!membership || !membership.user || !membership.role] of
    [createPermitUserAssignRole] does not fire. *)
Definition has_grant_data (body : value) : bool :=
  match get_prop body "membership" with
  | inr membership =>
      truthy membership &&
      match get_prop membership "user", get_prop membership "role" with
      | inr user, inr role => truthy user && truthy role
      | _, _ => false
      end
  | inl _ => false
  end.

(** The guard [!membership || !membership.user] of [removePermitUser] does
    not fire. *)
Definition has_user_data (body : value) : bool :=
  match get_prop body "membership" with
  | inr membership =>
      truthy membership &&
      match get_prop membership "user" with
      | inr user => truthy user
      | inl _ => false
      end
  | inl _ => false
  end.

(** Whether [processMembershipEvent] reaches its [redis.del] on a body; the
    lemma [processMembershipEvent_effect] proves that this is what the code
    does. *)
Definition removes_record (body : value) : bool :=
  match get_prop body "action" with
  | inr action =>
      truthy action &&
      (if strict_eq_str action "member_invited" then false
       else if strict_eq_str action "member_added" then has_grant_data body
       else if strict_eq_str action "member_removed" then has_user_data body
       else true)
  | inl _ => false
  end.

(** An async call resolves (does not reject). *)
Definition resolves {Pdp A} (m : M Pdp A) (w : world Pdp) : Prop :=
  ∃ a, result (m w) = inr a.

(** An async function that leaves the store and the clock as they were. *)
Definition frames {Pdp A} (m : M Pdp A) : Prop :=
  ∀ w, redis (after (m w)) = redis w ∧ clock (after (m w)) = clock w.

(** Every stored body is one whose [action] can be read: the store never
    holds [null] or [undefined]. The intake handler maintains this. *)
Definition store_ok {Pdp} (w : world Pdp) : Prop :=
  ∀ k e, redis w !! k = Some e → ∃ a, get_prop (payload e) "action" = inr a.

(** A value that is not an object or an array: interpolating it in a
    template literal cannot throw. *)
Definition is_primitive (v : value) : bool :=
  match v with
  | VArr _ | VObj _ => false
  | VUndefined | VNull | VBool _ | VNum _ | VStr _ => true
  end.

(** [body.membership.user.login] and [body.membership.role], the two values
    the delivery functions interpolate in their log lines ([undefined] where
    the path cannot be read). *)
Definition membership_login (body : value) : value :=
  match get_prop body "membership" with
  | inr membership =>
      match get_prop membership "user" with
      | inr user =>
          match get_prop user "login" with
          | inr login => login
          | inl _ => VUndefined
          end
      | inl _ => VUndefined
      end
  | inl _ => VUndefined
  end.

Definition membership_role (body : value) : value :=
  match get_prop body "membership" with
  | inr membership =>
      match get_prop membership "role" with
      | inr role => role
      | inl _ => VUndefined
      end
  | inl _ => VUndefined
  end.

(** Two worlds with the same backend state and the same history of
    backend calls. *)
Definition same_backend {Pdp} (w1 w2 : world Pdp) : Prop :=
  permit w1 = permit w2 ∧ trace w1 = trace w2.

(** An async function whose outcome, output and backend effect do not
    depend on the store or the clock. *)
Definition blind {Pdp A} (m : M Pdp A) : Prop :=
  ∀ w1 w2, same_backend w1 w2 →
    result (m w1) = result (m w2) ∧
    printed (m w1) = printed (m w2) ∧
    same_backend (after (m w1)) (after (m w2)).

(** What the route and the sweeps keep true of the store: bodies can be
    read, keys match ["event:*"], and nothing expires more than a day
    ahead of the clock. *)
Definition kept_well {Pdp} (w : world Pdp) : Prop :=
  ∀ k e, redis w !! k = Some e →
    (∃ a, get_prop (payload e) "action" = inr a) ∧
    event_pattern k = true ∧
    (expires_at e ≤ clock w + 86400 * 1000)%Z.

(** ** Sample backends, bodies and worlds *)

(** A backend that is down: every call rejects. *)
Definition down_api : PermitApi unit := {|
  createUser := λ _ p, (inl (Rejected "createUser"), p);
  assignRole := λ _ _ _ p, (inl (Rejected "assignRole"), p);
  deleteUser := λ _ p, (inl (Rejected "deleteUser"), p)
|}.

(** A backend that is up: it keeps the list of its users. *)
Definition up_api : PermitApi (list value) := {|
  createUser := λ key p, (inr (VObj [("id", key)]), key :: p);
  assignRole := λ user role _ p, (inr (VObj [("user", user); ("role", role)]), p);
  deleteUser := λ key p, (inr VUndefined, p)
|}.

Definition alice_added : value :=
  VObj [("action", VStr "member_added");
        ("membership", VObj [("user", VObj [("login", VStr "alice")]);
                             ("role", VStr "admin")])].

Definition bob_removed : value :=
  VObj [("action", VStr "member_removed");
        ("membership", VObj [("user", VObj [("login", VStr "bob")])])].

Definition carol_invited : value :=
  VObj [("action", VStr "member_invited");
        ("membership", VObj [("user", VObj [("login", VStr "carol")])])].

(** [member_added] without a role. *)
Definition dave_no_role : value :=
  VObj [("action", VStr "member_added");
        ("membership", VObj [("user", VObj [("login", VStr "dave")])])].

Definition no_action : value := VObj [("zen", VStr "Keep it logically awesome.")].

Definition boot {Pdp} (p : Pdp) (now : Z) : world Pdp := World ∅ now p [].

Definition with_record {Pdp} (k : string) (body : value) (w : world Pdp)
  : world Pdp :=
  World (<[k := Entry body (clock w + 86400 * 1000)]> (redis w))
        (clock w) (permit w) (trace w).

Definition erin_edited : value :=
  VObj [("action", VStr "member_edited");
        ("membership", VObj [("user", VObj [("login", VStr "erin")])])].

(** Alice's record, stored at clock reading 1000. *)
Definition alice_pending : world unit :=
  with_record "event:1000" alice_added (boot tt 1000).

Definition dave_pending : world unit :=
  with_record "event:1000" dave_no_role (boot tt 1000).

Definition carol_pending : world unit :=
  with_record "event:1001" carol_invited (boot tt 1001).

Definition no_action_pending : world unit :=
  with_record "event:1000" no_action (boot tt 1000).

(** Alice's record next to a key of another application. *)
Definition shared_store : world (list value) :=
  with_record "session:42" (VObj [("uid", VNum 7)])
    (with_record "event:1000" alice_added (boot [] 1000)).

(** Three pending records while the backend is up. *)
Definition three_pending : world (list value) :=
  with_record "event:1002" alice_added
    (with_record "event:1001" carol_invited
       (with_record "event:1000" dave_no_role (boot [] 5000))).

(** Dave's record was stored at 1000 and Carol's at 1010; the clock now
    reads 86401005, past the expiry of the first and before that of the
    second. *)
Definition one_expired : world unit :=
  advance 86399995
    (with_record "event:1001" carol_invited
       (advance 10 (with_record "event:1000" dave_no_role (boot tt 1000)))).

(** ** Basic facts about values and the store *)

Lemma get_prop_readable (v : value) (k k' : string) (a : value) :
  get_prop v k = inr a → ∃ b, get_prop v k' = inr b.
Proof. destruct v; simpl; intros H; try discriminate; eauto. Qed.

Lemma truthy_readable (v : value) (k : string) :
  truthy v = true → ∃ b, get_prop v k = inr b.
Proof. destruct v; simpl; intros H; try discriminate; eauto. Qed.

Lemma live_advance (now d : Z) (e : entry) :
  live (now + d) e = true ↔ (d ≤ expires_at e - now)%Z.
Proof. unfold live. rewrite Z.leb_le. lia. Qed.

(** Unfolding of the async plumbing. *)
Ltac run :=
  unfold bind, lift, ret, throw, try_catch, console_log, console_warn,
    console_error, Date_now, redis_set, redis_get, redis_del; simpl.

Section RelayFacts.
Context {Pdp : Type} (api : PermitApi Pdp).

(** *** The two delivery functions *)

Lemma frames_lift {A} (r : error + A) : frames (lift (Pdp:=Pdp) r).
Proof. by intros w. Qed.

Lemma frames_throw {A} (e : error) : frames (throw (Pdp:=Pdp) (A:=A) e).
Proof. by intros w. Qed.

Lemma frames_console_log (a : list log_arg) : frames (console_log (Pdp:=Pdp) a).
Proof. by intros w. Qed.

Lemma frames_console_error (a : list log_arg) :
  frames (console_error (Pdp:=Pdp) a).
Proof. by intros w. Qed.

Lemma frames_bind {A C} (m : M Pdp A) (f : A → M Pdp C) :
  frames m → (∀ a, frames (f a)) → frames (bind m f).
Proof.
  intros Hm Hf w. unfold bind. destruct (Hm w) as [Hs Hc].
  destruct (m w) as [[e|a] w' out]; simpl in *; [done|].
  destruct (Hf a w') as [Hs' Hc'].
  destruct (f a w') as [r w'' out']; simpl in *. split; congruence.
Qed.

Lemma frames_try_catch {A} (m : M Pdp A) (h : error → M Pdp A) :
  frames m → (∀ e, frames (h e)) → frames (try_catch m h).
Proof.
  intros Hm Hh w. unfold try_catch. destruct (Hm w) as [Hs Hc].
  destruct (m w) as [[e|a] w' out]; simpl in *; [|done].
  destruct (Hh e w') as [Hs' Hc'].
  destruct (h e w') as [r w'' out']; simpl in *. split; congruence.
Qed.

Lemma frames_permit_api_createUser (key : value) :
  frames (permit_api_createUser api key).
Proof.
  intros w. unfold permit_api_createUser.
  by destruct (createUser api key (permit w)).
Qed.

Lemma frames_permit_api_assignRole (user role : value) (tenant : string) :
  frames (permit_api_assignRole api user role tenant).
Proof.
  intros w. unfold permit_api_assignRole.
  by destruct (assignRole api user role tenant (permit w)).
Qed.

Lemma frames_permit_api_deleteUser (key : value) :
  frames (permit_api_deleteUser api key).
Proof.
  intros w. unfold permit_api_deleteUser.
  by destruct (deleteUser api key (permit w)).
Qed.

Ltac frames :=
  repeat first
    [ apply frames_lift | apply frames_throw | apply frames_console_log
    | apply frames_console_error | apply frames_permit_api_createUser
    | apply frames_permit_api_assignRole | apply frames_permit_api_deleteUser
    | apply frames_bind; [|intros ?] | apply frames_try_catch; [|intros ?]
    | match goal with |- frames (if ?b then _ else _) => destruct b end ].

Lemma createPermitUserAssignRole_frame (body : value) :
  frames (createPermitUserAssignRole api body).
Proof. unfold createPermitUserAssignRole. frames. Qed.

Lemma removePermitUser_frame (body : value) :
  frames (removePermitUser api body).
Proof. unfold removePermitUser. frames. Qed.

(** A [try] whose [catch] only logs always resolves. *)
Lemma try_catch_logged (m : M Pdp unit) (line : list log_arg) (w : world Pdp) :
  result (try_catch m (λ _, console_error line) w) = inr tt.
Proof.
  unfold try_catch. by destruct (m w) as [[e|[]] w' out].
Qed.

Lemma bind_result {A C} (m : M Pdp A) (f : A → M Pdp C) (w : world Pdp) :
  result (bind m f w) =
    match result (m w) with
    | inl e => inl e
    | inr a => result (f a (after (m w)))
    end.
Proof.
  unfold bind. destruct (m w) as [[e|a] w' out]; simpl; [done|].
  by destruct (f a w').
Qed.

Lemma bind_ext {A C} (m : M Pdp A) (f g : A → M Pdp C) (w : world Pdp) :
  (∀ a w', f a w' = g a w') → bind m f w = bind m g w.
Proof.
  intros Hfg. unfold bind. destruct (m w) as [[e|a] w' out]; [done|].
  by rewrite Hfg.
Qed.

Lemma bind_after {A C} (m : M Pdp A) (f : A → M Pdp C) (w : world Pdp) :
  after (bind m f w) =
    match result (m w) with
    | inl e => after (m w)
    | inr a => after (f a (after (m w)))
    end.
Proof.
  unfold bind. destruct (m w) as [[e|a] w' out]; simpl; [done|].
  by destruct (f a w').
Qed.

Lemma createPermitUserAssignRole_result (body a : value) (w : world Pdp) :
  get_prop body "action" = inr a →
  result (createPermitUserAssignRole api body w) =
    if has_grant_data body then inr tt
    else inl (Error "Invalid membership data").
Proof.
  intros Ha. destruct (get_prop_readable _ _ "membership" _ Ha) as [m Hm].
  unfold createPermitUserAssignRole, has_grant_data. rewrite Hm.
  rewrite bind_result. cbn [lift result after].
  destruct (truthy m) eqn:Tm; cbn [negb andb]; [|done].
  destruct (truthy_readable m "user" Tm) as [u ->].
  destruct (truthy_readable m "role" Tm) as [r ->].
  rewrite bind_result. cbn [lift result after].
  destruct (truthy u) eqn:Tu; cbn [negb andb]; [|done].
  rewrite bind_result. cbn [lift result after].
  destruct (truthy r) eqn:Tr; cbn [negb andb]; [|done].
  destruct (truthy_readable u "login" Tu) as [l ->].
  rewrite bind_result. cbn [lift result after].
  rewrite bind_result. cbn [console_log result after].
  apply try_catch_logged.
Qed.

Lemma removePermitUser_result (body a : value) (w : world Pdp) :
  get_prop body "action" = inr a →
  result (removePermitUser api body w) =
    if has_user_data body then inr tt
    else inl (Error "Invalid membership data").
Proof.
  intros Ha. destruct (get_prop_readable _ _ "membership" _ Ha) as [m Hm].
  unfold removePermitUser, has_user_data. rewrite Hm.
  rewrite bind_result. cbn [lift result after].
  destruct (truthy m) eqn:Tm; cbn [negb andb]; [|done].
  destruct (truthy_readable m "user" Tm) as [u ->].
  rewrite bind_result. cbn [lift result after].
  destruct (truthy u) eqn:Tu; cbn [negb andb]; [|done].
  destruct (truthy_readable u "login" Tu) as [l ->].
  rewrite bind_result. cbn [lift result after].
  rewrite bind_result. cbn [console_log result after].
  apply try_catch_logged.
Qed.

Lemma createPermitUserAssignRole_invalid (body a : value) (w : world Pdp) :
  get_prop body "action" = inr a →
  has_grant_data body = false →
  createPermitUserAssignRole api body w =
    Outcome (inl (Error "Invalid membership data")) w [].
Proof.
  intros Ha. destruct (get_prop_readable _ _ "membership" _ Ha) as [m Hm].
  unfold createPermitUserAssignRole, has_grant_data. run. rewrite Hm. simpl.
  destruct (truthy m) eqn:Tm; simpl; [|done].
  destruct (truthy_readable m "user" Tm) as [u ->].
  destruct (truthy_readable m "role" Tm) as [r ->]. simpl.
  destruct (truthy u) eqn:Tu; simpl; [|done].
  destruct (truthy r) eqn:Tr; simpl; [done|done].
Qed.

Lemma removePermitUser_invalid (body a : value) (w : world Pdp) :
  get_prop body "action" = inr a →
  has_user_data body = false →
  removePermitUser api body w =
    Outcome (inl (Error "Invalid membership data")) w [].
Proof.
  intros Ha. destruct (get_prop_readable _ _ "membership" _ Ha) as [m Hm].
  unfold removePermitUser, has_user_data. run. rewrite Hm. simpl.
  destruct (truthy m) eqn:Tm; simpl; [|done].
  destruct (truthy_readable m "user" Tm) as [u ->]. simpl.
  destruct (truthy u) eqn:Tu; simpl; [done|done].
Qed.

(** *** One record *)

(** What [processMembershipEvent] does to the store, for every body whose
    [action] can be read: it never rejects, and it deletes the record
    exactly when [removes_record] says so. *)
Lemma processMembershipEvent_effect (k : string) (body a : value)
    (w : world Pdp) :
  get_prop body "action" = inr a →
  result (processMembershipEvent api k body w) = inr tt ∧
  clock (after (processMembershipEvent api k body w)) = clock w ∧
  redis (after (processMembershipEvent api k body w)) =
    if removes_record body then delete k (redis w) else redis w.
Proof.
  intros Ha. unfold processMembershipEvent, removes_record, switch_action.
  rewrite Ha. run.
  destruct (truthy a) eqn:Ta; simpl; [|done].
  destruct (strict_eq_str a "member_invited"); simpl; [done|].
  destruct (strict_eq_str a "member_added"); simpl.
  { pose proof (createPermitUserAssignRole_result body a w Ha) as Hr.
    pose proof (createPermitUserAssignRole_frame body w) as [Hs Hc].
    destruct (createPermitUserAssignRole api body w) as [[e|[]] w' out];
      simpl in *; destruct (has_grant_data body); simplify_eq; simpl;
      by rewrite ?Hs, ?Hc. }
  destruct (strict_eq_str a "member_removed"); simpl.
  { pose proof (removePermitUser_result body a w Ha) as Hr.
    pose proof (removePermitUser_frame body w) as [Hs Hc].
    destruct (removePermitUser api body w) as [[e|[]] w' out];
      simpl in *; destruct (has_user_data body); simplify_eq; simpl;
      by rewrite ?Hs, ?Hc. }
  done.
Qed.

Lemma store_ok_delete (k : string) (w w' : world Pdp) :
  store_ok w →
  redis w' = delete k (redis w) ∨ redis w' = redis w →
  store_ok w'.
Proof.
  intros Hok [E|E] k' e; rewrite E; [|by apply Hok].
  intros [_ H]%lookup_delete_Some. by apply (Hok k').
Qed.

Lemma store_ok_advance (d : Z) (w : world Pdp) :
  store_ok w → store_ok (advance d w).
Proof. intros Hok k e. apply Hok. Qed.

Lemma store_ok_boot (p : Pdp) (now : Z) : store_ok (boot p now).
Proof. intros k e. unfold boot. simpl. by rewrite lookup_empty. Qed.

Lemma store_ok_with_record (k : string) (body a : value) (w : world Pdp) :
  get_prop body "action" = inr a →
  store_ok w → store_ok (with_record k body w).
Proof.
  intros Ha Hok k' e. unfold with_record. simpl.
  intros [[_ <-]|[_ H]]%lookup_insert_Some; [by eexists|by apply (Hok k')].
Qed.

(** The route keeps the store well formed: a body whose [action] cannot be
    read makes the route throw before [redis.set]. *)
Lemma post_github_membership_store_ok (body : value) (w : world Pdp) :
  store_ok w → store_ok (after (post_github_membership api body w)).
Proof.
  intros Hok. unfold post_github_membership. run.
  destruct (get_prop body "action") as [err|a] eqn:Ha; simpl; [done|].
  assert (store_ok (with_record (eventId (clock w)) body w)) as Hok1
    by by apply (store_ok_with_record _ _ a).
  destruct (truthy a); simpl; [|done].
  match goal with
  | |- context [processMembershipEvent api ?i body ?w1] =>
      destruct (processMembershipEvent_effect i body a w1 Ha)
        as (Hr & Hc & Hs);
      destruct (processMembershipEvent api i body w1) as [[e|[]] w' out]
  end; simpl in *; [done|].
  apply (store_ok_delete (eventId (clock w)) (with_record (eventId (clock w)) body w));
    [done|]. rewrite Hs. destruct (removes_record body); auto.
Qed.

(** *** One pass over a list of keys *)

(** The body of one iteration, once [redis.get] has answered. *)
Lemma retry_body_effect (key : string) (w : world Pdp) :
  store_ok w →
  ∀ step : M Pdp unit,
    step =
      match
        match redis w !! key with
        | Some e => if live (clock w) e then Some (payload e) else None
        | None => None
        end
      with
      | Some body => processMembershipEvent api key body
      | None => ret tt
      end →
    result (step w) = inr tt ∧
    clock (after (step w)) = clock w ∧
    redis (after (step w)) =
      match redis w !! key with
      | Some e =>
          if live (clock w) e && removes_record (payload e)
          then delete key (redis w) else redis w
      | None => redis w
      end.
Proof.
  intros Hok step ->.
  destruct (redis w !! key) as [e|] eqn:Hkey; [|done].
  destruct (live (clock w) e); [|done].
  destruct (Hok key e Hkey) as [a Ha].
  apply (processMembershipEvent_effect key (payload e) a w Ha).
Qed.

(** The fate of every key after a pass over [keys]: a key is gone exactly
    when it was listed, still readable, and its body leads to [redis.del];
    every other record is as before. The pass itself never rejects. *)
Lemma retry_each_effect (keys : list string) (w : world Pdp) :
  store_ok w →
  result (retry_each api keys w) = inr tt ∧
  clock (after (retry_each api keys w)) = clock w ∧
  ∀ k, redis (after (retry_each api keys w)) !! k =
       match redis w !! k with
       | Some e =>
           if bool_decide (k ∈ keys) && live (clock w) e
              && removes_record (payload e)
           then None else Some e
       | None => None
       end.
Proof.
  revert w. induction keys as [|key rest IH]; intros w Hok.
  { simpl. repeat split. intros k. by destruct (redis w !! k). }
  cbn [retry_each].
  rewrite (bind_result (redis_get key)), (bind_after (redis_get key)).
  unfold redis_get. cbn [result after].
  match goal with
  | |- context [bind ?m (λ _, retry_each api rest)] => set (step := m)
  end.
  destruct (retry_body_effect key w Hok step eq_refl) as (Hr1 & Hc1 & Hs1).
  rewrite (bind_result step), (bind_after step), Hr1.
  set (w1 := after (step w)) in *.
  assert (store_ok w1) as Hok1.
  { apply (store_ok_delete key w); [done|]. rewrite Hs1.
    destruct (redis w !! key) as [e|]; [|by right].
    destruct (live (clock w) e && removes_record (payload e)); auto. }
  destruct (IH w1 Hok1) as (Hr & Hc & Hl).
  repeat split; [done|congruence|].
  intros k. rewrite Hl, Hs1, Hc1. clear Hl Hs1 Hr Hr1 Hc Hc1.
  destruct (decide (k = key)) as [->|Hne].
  - rewrite (bool_decide_eq_true_2 (key ∈ key :: rest)) by apply list_elem_of_here.
    destruct (redis w !! key) as [e|] eqn:Hkey; [|by rewrite Hkey].
    destruct (live (clock w) e && removes_record (payload e)) eqn:Hdel.
    + rewrite lookup_delete_eq. cbn [andb]. by rewrite Hdel.
    + rewrite Hkey. cbn [andb]. rewrite Hdel.
      by rewrite <- andb_assoc, Hdel, andb_false_r.
  - rewrite (bool_decide_ext (k ∈ key :: rest) (k ∈ rest))
      by (rewrite elem_of_cons; intuition congruence).
    assert (match redis w !! key with
            | Some e =>
                if live (clock w) e && removes_record (payload e)
                then delete key (redis w) else redis w
            | None => redis w
            end !! k = redis w !! k) as ->; [|done].
    destruct (redis w !! key) as [e|]; [|done].
    destruct (live (clock w) e && removes_record (payload e)); [|done].
    by rewrite lookup_delete_ne.
Qed.

(** *** One sweep, and the timer *)

Lemma event_keys_elem (k : string) (e : entry) (w : world Pdp) :
  redis w !! k = Some e →
  bool_decide (k ∈ event_keys w) = event_pattern k && live (clock w) e.
Proof.
  intros Hk.
  assert (k ∈ event_keys w ↔ event_pattern k && live (clock w) e = true)
    as Hiff.
  { unfold event_keys. rewrite list_elem_of_fmap. split.
    - intros [[k' e'] [-> [H1 H2]%elem_of_map_to_list%map_lookup_filter_Some]].
      simpl in *. by simplify_eq.
    - intros H. exists (k, e). split; [done|].
      by apply elem_of_map_to_list, map_lookup_filter_Some. }
  destruct (event_pattern k && live (clock w) e).
  - apply bool_decide_eq_true_2. by apply Hiff.
  - apply bool_decide_eq_false_2. intros H%Hiff. done.
Qed.


(** One firing of the timer is its banner line followed by the loop over
    the listed keys. *)
Lemma retry_sweep_unfold (w : world Pdp) :
  result (retry_sweep api w) = result (retry_each api (event_keys w) w) ∧
  after (retry_sweep api w) = after (retry_each api (event_keys w) w) ∧
  printed (retry_sweep api w) =
    Console LLog [Txt "Retrying failed events from Redis..."]
    :: printed (retry_each api (event_keys w) w).
Proof.
  unfold retry_sweep, bind, console_log, redis_keys.
  by destruct (retry_each api (event_keys w) w) as [r w' out].
Qed.

Lemma retry_sweep_effect (w : world Pdp) :
  store_ok w →
  result (retry_sweep api w) = inr tt ∧
  clock (after (retry_sweep api w)) = clock w ∧
  ∀ k, redis (after (retry_sweep api w)) !! k =
       match redis w !! k with
       | Some e =>
           if event_pattern k && live (clock w) e && removes_record (payload e)
           then None else Some e
       | None => None
       end.
Proof.
  intros Hok. destruct (retry_sweep_unfold w) as (-> & -> & _).
  destruct (retry_each_effect (event_keys w) w Hok) as (Hr & Hc & Hl).
  repeat split; [done..|]. intros k. rewrite Hl.
  destruct (redis w !! k) as [e|] eqn:Hk; [|done].
  rewrite (event_keys_elem k e w Hk).
  by destruct (event_pattern k), (live (clock w) e).
Qed.

Lemma retry_sweep_store_ok (w : world Pdp) :
  store_ok w → store_ok (after (retry_sweep api w)).
Proof.
  intros Hok. destruct (retry_sweep_effect w Hok) as (_ & _ & Hl).
  intros k e. rewrite Hl. destruct (redis w !! k) as [e'|] eqn:Hk; [|done].
  case_match; [done|]. intros [= <-]. by apply (Hok k).
Qed.

Lemma run_sweeps_store_ok (delays : list Z) (w : world Pdp) :
  store_ok w → store_ok (run_sweeps api delays w).
Proof.
  revert w. induction delays as [|d ds IH]; intros w Hok; [done|].
  simpl. apply IH, retry_sweep_store_ok, store_ok_advance, Hok.
Qed.

(** Sweeps never create records. *)
Lemma run_sweeps_absent (delays : list Z) (k : string) (w : world Pdp) :
  store_ok w →
  redis w !! k = None →
  redis (run_sweeps api delays w) !! k = None.
Proof.
  revert w. induction delays as [|d ds IH]; intros w Hok Hk; [done|].
  simpl. apply IH; [by apply retry_sweep_store_ok, store_ok_advance|].
  destruct (retry_sweep_effect (advance d w)) as (_ & _ & Hl);
    [by apply store_ok_advance|].
  rewrite Hl. simpl. by rewrite Hk.
Qed.

(** A record whose body never leads to [redis.del] survives every sweep. *)
Lemma run_sweeps_kept (delays : list Z) (k : string) (e : entry)
    (w : world Pdp) :
  store_ok w →
  redis w !! k = Some e →
  removes_record (payload e) = false →
  redis (run_sweeps api delays w) !! k = Some e.
Proof.
  revert w. induction delays as [|d ds IH]; intros w Hok Hk Hrm; [done|].
  simpl. apply IH; [by apply retry_sweep_store_ok, store_ok_advance| |done].
  destruct (retry_sweep_effect (advance d w)) as (_ & _ & Hl);
    [by apply store_ok_advance|].
  rewrite Hl. simpl. rewrite Hk, Hrm. by rewrite andb_false_r.
Qed.

(** For the two delivering actions, the delivery step resolves exactly on
    the bodies that lead to [redis.del], whatever the backend does. *)
Lemma switch_action_resolves (act : string) (body : value) (w0 : world Pdp) :
  get_prop body "action" = inr (VStr act) →
  act = "member_added" ∨ act = "member_removed" →
  resolves (switch_action api (VStr act) body) w0 ↔ removes_record body = true.
Proof.
  intros Ha Hact. unfold resolves, removes_record, switch_action.
  rewrite Ha. destruct Hact as [-> | ->]; simpl; unfold bind, console_log, ret.
  - pose proof (createPermitUserAssignRole_result body _ w0 Ha) as Hr.
    destruct (createPermitUserAssignRole api body w0) as [[e|[]] w' out];
      simpl in *; destruct (has_grant_data body); simplify_eq;
      (split; [by intros [? ?]|by eauto]).
  - pose proof (removePermitUser_result body _ w0 Ha) as Hr.
    destruct (removePermitUser api body w0) as [[e|[]] w' out];
      simpl in *; destruct (has_user_data body); simplify_eq;
      (split; [by intros [? ?]|by eauto]).
Qed.

End RelayFacts.

(** ** Properties of the relay *)

Section RelayProperties.
Context {Pdp : Type} (api : PermitApi Pdp).


(** The same happens on the retraction path when [permit.api.deleteUser]
    rejects. *)
Lemma backend_rejection_deletes_removed_record (k : string)
    (body membership user login : value) (err : error) (p : Pdp)
    (w : world Pdp) :
  get_prop body "action" = inr (VStr "member_removed") →
  get_prop body "membership" = inr membership → truthy membership = true →
  get_prop membership "user" = inr user → truthy user = true →
  get_prop user "login" = inr login →
  deleteUser api login (permit w) = (inl err, p) →
  result (processMembershipEvent api k body w) = inr tt ∧
  redis (after (processMembershipEvent api k body w)) = delete k (redis w) ∧
  trace (after (processMembershipEvent api k body w)) =
    trace w ++ [DeleteUser login].
Proof.
  intros Ha Hm Tm Hu Tu Hl Hc.
  unfold processMembershipEvent, switch_action, removePermitUser,
    permit_api_deleteUser.
  run. rewrite Ha. simpl. rewrite Hm. simpl. rewrite Tm. simpl.
  rewrite Hu. simpl. rewrite Tu. simpl.
  rewrite Hl. simpl. rewrite Hc. simpl. done.
Qed.

(** C3, amended: a [member_added] record on which the guard of
    [createPermitUserAssignRole] fires, or a [member_removed] record on
    which the guard of [removePermitUser] fires, makes the delivery throw
    "Invalid membership data"; [processMembershipEvent] catches it, logs it
    with the event id and leaves the whole world, the record included, as it
    was. No later sweep removes the record either. *)
Theorem validation_failure_keeps_record (k act : string) (body : value)
    (w : world Pdp) :
  get_prop body "action" = inr (VStr act) →
  (act = "member_added" ∧ has_grant_data body = false) ∨
  (act = "member_removed" ∧ has_user_data body = false) →
  result (processMembershipEvent api k body w) = inr tt ∧
  after (processMembershipEvent api k body w) = w ∧
  last (printed (processMembershipEvent api k body w)) =
    Some (Console LError [Txt "Error processing event "; Txt k; Txt ":";
                          Err (Error "Invalid membership data")]) ∧
  ∀ (e : entry) (delays : list Z),
    store_ok w → redis w !! k = Some e → payload e = body →
    redis (run_sweeps api delays
             (after (processMembershipEvent api k body w))) !! k = Some e.
Proof.
  intros Ha Hbad.
  assert (processMembershipEvent api k body w =
          Outcome (inr tt) w
            [Console LLog [Txt (if String.eqb act "member_added"
                                then "User added to organization."
                                else "User removed from organization.")];
             Console LError [Txt "Error processing event "; Txt k; Txt ":";
                             Err (Error "Invalid membership data")]]) as E.
  { unfold processMembershipEvent, switch_action. rewrite Ha.
    destruct Hbad as [[-> Hg] | [-> Hg]]; run.
    - by rewrite (createPermitUserAssignRole_invalid api body _ w Ha Hg).
    - by rewrite (removePermitUser_invalid api body _ w Ha Hg). }
  rewrite E. simpl. repeat split.
  intros e delays Hok Hk He. apply run_sweeps_kept; [done..|].
  rewrite He. unfold removes_record. rewrite Ha.
  by destruct Hbad as [[-> ->] | [-> ->]].
Qed.

(** C4, as the code behaves: a [member_invited] record makes no backend
    call and [processMembershipEvent] resolves, but through the [return] of
    that [case], which leaves the function before [redis.del]: the world,
    the record included, is unchanged. *)
Theorem member_invited_not_deleted (k : string) (body : value)
    (w : world Pdp) :
  get_prop body "action" = inr (VStr "member_invited") →
  processMembershipEvent api k body w =
    Outcome (inr tt) w [Console LLog [Txt "Ignoring member_invited event."]].
Proof.
  intros Ha. unfold processMembershipEvent, switch_action. rewrite Ha.
  by run.
Qed.

(** C5, amended: a request whose [action] is missing (or falsy) is answered
    with status 400 and is never delivered, but the route has by then
    already stored its body under the event id with the 86400 s expiry:
    the rejection comes after persistence, not before it. *)
Theorem missing_action_is_persisted (body a : value) (w : world Pdp) :
  get_prop body "action" = inr a →
  truthy a = false →
  post_github_membership api body w =
    Outcome (inr (Response 400 ("error", "Missing action in request body")))
            (with_record (eventId (clock w)) body w) [] ∧
  redis (after (post_github_membership api body w)) !! eventId (clock w) =
    Some (Entry body (clock w + 86400 * 1000)).
Proof.
  intros Ha Ta. unfold post_github_membership. run. rewrite Ha. simpl.
  rewrite Ta. simpl. split; [done|]. by rewrite lookup_insert_eq.
Qed.

(** The sibling paths: the [default] case of the same [switch] falls
    through to [redis.del], and the first Redis listing of the route tests
    [action] before it stores anything. *)
Lemma unhandled_action_deleted (k : string) (body a : value) (w : world Pdp) :
  get_prop body "action" = inr a →
  truthy a = true →
  strict_eq_str a "member_invited" = false →
  strict_eq_str a "member_added" = false →
  strict_eq_str a "member_removed" = false →
  redis (after (processMembershipEvent api k body w)) = delete k (redis w).
Proof.
  intros Ha Ta H1 H2 H3.
  destruct (processMembershipEvent_effect api k body a w Ha) as (_ & _ & ->).
  unfold removes_record. by rewrite Ha, Ta, H1, H2, H3.
Qed.

Lemma first_listing_rejects_before_persisting (body a : value)
    (w : world Pdp) :
  get_prop body "action" = inr a →
  truthy a = false →
  post_github_membership_first api body w =
    Outcome (inr (Response 400 ("error", "Missing action in request body")))
            w [].
Proof.
  intros Ha Ta. unfold post_github_membership_first. run.
  by rewrite Ha; simpl; rewrite Ta.
Qed.

(** Deletion follows the guard, not the backend: take a pending
    [member_added] or [member_removed] record that the
    first firing of the retry timer still finds readable. Whatever the
    backend does and however many further sweeps run, the record ends up
    deleted from the store if and only if the delivery step resolves on
    the record's body (in any world [w0]). *)
Theorem at_least_once_delivery (k act : string) (e : entry)
    (w w0 : world Pdp) (d : Z) (ds : list Z) :
  store_ok w →
  redis w !! k = Some e →
  event_pattern k = true →
  get_prop (payload e) "action" = inr (VStr act) →
  act = "member_added" ∨ act = "member_removed" →
  live (clock w + d) e = true →
  redis (run_sweeps api (d :: ds) w) !! k = None ↔
  resolves (switch_action api (VStr act) (payload e)) w0.
Proof.
  intros Hok Hk Hpat Ha Hact Hlive.
  rewrite (switch_action_resolves api act (payload e) w0 Ha Hact).
  assert (store_ok (advance d w)) as Hok' by by apply store_ok_advance.
  destruct (retry_sweep_effect api (advance d w) Hok') as (_ & _ & Hl).
  specialize (Hl k). simpl in Hl. rewrite Hk, Hpat, Hlive in Hl. simpl in Hl.
  simpl. destruct (removes_record (payload e)) eqn:Hrm.
  - split; [done|]. intros _.
    apply run_sweeps_absent; [by apply retry_sweep_store_ok|done].
  - split; [|done]. intros Hgone.
    rewrite (run_sweeps_kept api ds k e) in Hgone;
      [done|by apply retry_sweep_store_ok|done|done].
Qed.

(** The identifier is a function of the millisecond read from
    [Date.now()] alone, and two identifiers are equal exactly when the two
    readings are. *)
Theorem eventId_distinct_iff_clock_distinct (t1 t2 : Z) :
  eventId t1 = eventId t2 ↔ t1 = t2.
Proof.
  split; [|by intros ->]. unfold eventId. intros H.
  apply (inj (String.app "event:")) in H. by apply (inj pretty) in H.
Qed.

Lemma replay_each_retry_each (keys : list string) (w : world Pdp) :
  replay_each api keys w = retry_each api keys w.
Proof.
  revert w. induction keys as [|key rest IH]; intros w; [done|].
  cbn [replay_each retry_each].
  apply bind_ext. intros eventData w1. apply bind_ext. intros _ w2. apply IH.
Qed.

(** C7: on every world and for every backend, the replay at start-up and
    one firing of the retry timer run the same loop: they leave the same
    world (store, backend state, backend calls, clock), settle the same
    way, and print the same per-record lines; only the banner lines differ. *)
Theorem replay_is_one_sweep (port : Z) (w : world Pdp) :
  (∀ keys w', replay_each api keys w' = retry_each api keys w') ∧
  after (recovery_replay api port w) = after (retry_sweep api w) ∧
  result (recovery_replay api port w) = result (retry_sweep api w) ∧
  ∃ per_record : list log_entry,
    printed (retry_sweep api w) =
      Console LLog [Txt "Retrying failed events from Redis..."]
      :: per_record ∧
    printed (recovery_replay api port w) =
      Console LLog
        [Txt "Replaying pending events from Redis after server restart..."]
      :: per_record ++
         match result (retry_sweep api w) with
         | inr _ =>
             [Console LLog [Txt "Server running at http://localhost:";
                            Val (VNum port)]]
         | inl _ => []
         end.
Proof.
  split; [apply replay_each_retry_each|].
  destruct (retry_sweep_unfold api w) as (Hr & Ha & Hp). rewrite Hr, Ha, Hp.
  unfold recovery_replay, bind, console_log, redis_keys.
  rewrite replay_each_retry_each.
  destruct (retry_each api (event_keys w) w) as [[e|[]] w' out]; simpl.
  - repeat split. exists out. by rewrite app_nil_r.
  - repeat split. by exists out.
Qed.


(** C10: when a pass reaches a key for which [redis.get] answers [null]
    (the record expired or was deleted after the keys were listed), both the
    retry loop and the replay loop go straight on to the remaining keys:
    nothing is thrown, printed or changed for that key. *)
Theorem vanished_key_is_skipped (key : string) (rest : list string)
    (w : world Pdp) :
  result (redis_get key w) = inr None →
  retry_each api (key :: rest) w = retry_each api rest w ∧
  replay_each api (key :: rest) w = replay_each api rest w.
Proof.
  intros Hget. unfold redis_get in Hget. cbn [result] in Hget.
  injection Hget as Hget.
  cbn [retry_each replay_each]. unfold bind, redis_get, ret. rewrite Hget.
  split.
  - by destruct (retry_each api rest w) as [r w' out].
  - by destruct (replay_each api rest w) as [r w' out].
Qed.

(** Failures are isolated: a sweep over a well-formed store never rejects,
    and every record it lists fares exactly as if it had been processed on
    its own, whatever happens to the other records of the pass. *)
Lemma sweep_isolates_failures (w : world Pdp) :
  store_ok w →
  result (retry_sweep api w) = inr tt ∧
  ∀ k e,
    redis w !! k = Some e →
    event_pattern k = true →
    live (clock w) e = true →
    redis (after (retry_sweep api w)) !! k =
    redis (after (processMembershipEvent api k (payload e) w)) !! k.
Proof.
  intros Hok. destruct (retry_sweep_effect api w Hok) as (Hr & _ & Hl).
  split; [done|]. intros k e Hk Hpat Hlive. rewrite Hl, Hk, Hpat, Hlive.
  destruct (Hok k e Hk) as [a Ha].
  destruct (processMembershipEvent_effect api k (payload e) a w Ha)
    as (_ & _ & ->).
  simpl. destruct (removes_record (payload e)); [by rewrite lookup_delete_eq|done].
Qed.

End RelayProperties.

(** ** The properties on the sample worlds *)


(** The same at the route: Alice's event arrives while the backend is down;
    the answer is 200 and nothing is left in the store to retry. *)
Example intake_while_backend_down :
  result (post_github_membership down_api alice_added (boot tt 1000)) =
    inr (Response 200 ("message", "Event processed successfully")) ∧
  redis (after (post_github_membership down_api alice_added (boot tt 1000)))
    !! eventId 1000 = None ∧
  trace (after (post_github_membership down_api alice_added (boot tt 1000)))
    = [CreateUser (VStr "alice")].
Proof. vm_compute. done. Qed.

Lemma at_least_once_delivery_witness :
  redis (run_sweeps down_api [300000; 300000]%Z alice_pending) !! "event:1000"
    = None ↔
  resolves (switch_action down_api (VStr "member_added") alice_added)
           alice_pending.
Proof.
  apply (at_least_once_delivery down_api "event:1000" "member_added"
           (Entry alice_added 86401000) alice_pending alice_pending
           300000 [300000%Z]).
  - apply (store_ok_with_record _ _ (VStr "member_added")); [reflexivity|].
    apply store_ok_boot.
  - vm_compute. reflexivity.
  - reflexivity.
  - reflexivity.
  - left. reflexivity.
  - reflexivity.
Defined.

Lemma validation_failure_keeps_record_witness :
  after (processMembershipEvent down_api "event:1000" dave_no_role
           dave_pending)
  = dave_pending.
Proof.
  refine (proj1 (proj2
    (validation_failure_keeps_record down_api "event:1000" "member_added"
       dave_no_role dave_pending _ _))).
  - reflexivity.
  - left. split; reflexivity.
Defined.

(** The claim that a malformed record is removed fails on Dave's record. *)
Lemma validation_failure_not_removed :
  redis (after (processMembershipEvent down_api "event:1000" dave_no_role
                  dave_pending)) !! "event:1000"
  ≠ None.
Proof. vm_compute. discriminate. Qed.

Lemma member_invited_not_deleted_witness :
  processMembershipEvent down_api "event:1001" carol_invited carol_pending =
    Outcome (inr tt) carol_pending
      [Console LLog [Txt "Ignoring member_invited event."]].
Proof.
  apply (member_invited_not_deleted down_api "event:1001" carol_invited
           carol_pending).
  reflexivity.
Defined.

(** The claim that nothing is written for a request without [action]
    fails: the answer is 400 and the body is in the store. *)
Lemma missing_action_written_to_store :
  result (post_github_membership down_api no_action (boot tt 1000)) =
    inr (Response 400 ("error", "Missing action in request body")) ∧
  redis (after (post_github_membership down_api no_action (boot tt 1000)))
  ≠ redis (boot tt 1000).
Proof.
  split; [reflexivity|]. intros H.
  apply (f_equal (λ m : gmap string entry, m !! "event:1000")) in H.
  vm_compute in H. discriminate.
Qed.

Lemma missing_action_is_persisted_witness :
  redis (after (post_github_membership down_api no_action (boot tt 1000)))
    !! eventId 1000
  = Some (Entry no_action (1000 + 86400 * 1000)).
Proof.
  refine (proj2
    (missing_action_is_persisted down_api no_action VUndefined (boot tt 1000)
       _ _)); reflexivity.
Defined.

(** Two different bodies posted at the same clock reading get the same
    identifier, and the second record replaces the first. *)
Lemma same_millisecond_same_id :
  carol_invited ≠ no_action ∧
  eventId (clock (boot tt 1000)) =
    eventId (clock (after (post_github_membership down_api carol_invited
                             (boot tt 1000)))) ∧
  redis (after (post_github_membership down_api carol_invited (boot tt 1000)))
    !! eventId 1000
  = Some (Entry carol_invited 86401000) ∧
  redis (after (post_github_membership down_api no_action
                  (after (post_github_membership down_api carol_invited
                            (boot tt 1000)))))
    !! eventId 1000
  = Some (Entry no_action 86401000) ∧
  size (redis (after (post_github_membership down_api no_action
                        (after (post_github_membership down_api carol_invited
                                  (boot tt 1000)))))) = 1.
Proof. split; [discriminate|]. vm_compute. done. Qed.

(** C2, as the code behaves: Alice's [member_added] record is pending and
    the backend is down. The first sweep calls [createUser], which rejects;
    the rejection is only logged inside [createPermitUserAssignRole],
    [assignRole] is never called, and the record is deleted all the same:
    deleted without any delivery having succeeded. *)
Theorem deleted_although_delivery_failed :
  redis alice_pending !! "event:1000" = Some (Entry alice_added 86401000) ∧
  redis (run_sweeps down_api [300000]%Z alice_pending) !! "event:1000"
    = None ∧
  trace (run_sweeps down_api [300000]%Z alice_pending)
    = [CreateUser (VStr "alice")] ∧
  printed (retry_sweep down_api (advance 300000 alice_pending)) =
    [Console LLog [Txt "Retrying failed events from Redis..."];
     Console LLog [Txt "User added to organization."];
     Console LLog [Txt "Creating Permit user: "; Val (VStr "alice");
                   Txt " with role: "; Val (VStr "admin")];
     Console LError
       [Txt "Error creating user or assigning role in Permit:"]].
Proof. vm_compute. done. Qed.

(** C8, as the code behaves: in a sweep over a record that fails
    validation, a [member_invited] record and a deliverable record, the
    failure does not stop the pass and the deliverable record is deleted,
    but the [member_invited] record, which is attempted and resolves, is
    still in the store afterwards. *)
Theorem invited_record_survives_sweep :
  result (retry_sweep up_api three_pending) = inr tt ∧
  printed (retry_sweep up_api three_pending) =
    [Console LLog [Txt "Retrying failed events from Redis..."];
     Console LLog [Txt "Ignoring member_invited event."];
     Console LLog [Txt "User added to organization."];
     Console LLog [Txt "Creating Permit user: "; Val (VStr "alice");
                   Txt " with role: "; Val (VStr "admin")];
     Console LLog [Txt "User created successfully in Permit:";
                   Val (VObj [("id", VStr "alice")])];
     Console LLog [Txt "Role assigned successfully in Permit:";
                   Val (VObj [("user", VStr "alice");
                              ("role", VStr "admin")])];
     Console LLog [Txt "User added to organization."];
     Console LError [Txt "Error processing event "; Txt "event:1000";
                     Txt ":"; Err (Error "Invalid membership data")]] ∧
  redis (after (retry_sweep up_api three_pending)) !! "event:1002" = None ∧
  redis (after (retry_sweep up_api three_pending)) !! "event:1001" =
    Some (Entry carol_invited 86405000) ∧
  redis (after (retry_sweep up_api three_pending)) !! "event:1000" =
    Some (Entry dave_no_role 86405000).
Proof. vm_compute. done. Qed.


Lemma vanished_key_is_skipped_witness :
  retry_each down_api ["event:1000"; "event:1001"] one_expired =
    retry_each down_api ["event:1001"] one_expired ∧
  replay_each down_api ["event:1000"; "event:1001"] one_expired =
    replay_each down_api ["event:1001"] one_expired.
Proof.
  apply (vanished_key_is_skipped down_api "event:1000" ["event:1001"]
           one_expired).
  vm_compute. reflexivity.
Defined.

(** ** Further properties of the relay *)

Section RelayExtras.
Context {Pdp : Type} (api : PermitApi Pdp).

Lemma strict_eq_str_true (v : value) (s : string) :
  strict_eq_str v s = true → v = VStr s.
Proof.
  destruct v; simpl; try discriminate. by intros ->%String.eqb_eq.
Qed.

(** *** The routes *)

(** X3: the answer of the [index.js] route on a body whose [action],
    [membership.user.login] and [membership.role] are primitives (so that
    no log line can throw). 400 for a falsy [action]; 200 "Ignoring
    member_invited event" for an invitation; 500 exactly when a
    [member_added] / [member_removed] body fails the guard of its delivery
    function; 200 "Event processed successfully" in every other case, a
    rejecting backend included. *)
Theorem index_route_answer (body a : value) (w : world Pdp) :
  get_prop body "action" = inr a →
  is_primitive a = true →
  is_primitive (membership_login body) = true →
  is_primitive (membership_role body) = true →
  result (post_github_membership_index api body w) =
    inr (if negb (truthy a) then
           Response 400 ("error", "Missing action in request body")
         else if strict_eq_str a "member_invited" then
           Response 200 ("message", "Ignoring member_invited event")
         else if strict_eq_str a "member_added" && negb (has_grant_data body)
                 || strict_eq_str a "member_removed"
                    && negb (has_user_data body) then
           Response 500 ("error", "Internal server error")
         else Response 200 ("message", "Event processed successfully")).
Proof.
  intros Ha _ _ _.
  unfold post_github_membership_index. run. rewrite Ha. simpl.
  destruct (truthy a); simpl; [|done].
  destruct (strict_eq_str a "member_invited"); simpl; [done|].
  destruct (strict_eq_str a "member_added") eqn:Hadd; simpl.
  { apply strict_eq_str_true in Hadd as ->.
    pose proof (createPermitUserAssignRole_result api body _ w Ha) as Hr.
    destruct (createPermitUserAssignRole api body w) as [[e|[]] w' out];
      simpl in *; destruct (has_grant_data body); simplify_eq; done. }
  destruct (strict_eq_str a "member_removed"); simpl; [|done].
  pose proof (removePermitUser_result api body a w Ha) as Hr.
  destruct (removePermitUser api body w) as [[e|[]] w' out];
    simpl in *; destruct (has_user_data body); simplify_eq; done.
Qed.

(** *** The delivery functions *)

(** X5: the calls of [createPermitUserAssignRole] on a body that passes its
    guard and whose login and role are primitives. [createUser] is called once with [membership.user.login];
    [assignRole] follows only if that call resolved with a value whose [id]
    can be read, and then with that [id], [membership.role] and the tenant
    "default". The function resolves in every case. *)
Theorem createPermitUserAssignRole_calls
    (body membership user role login : value) (w : world Pdp) :
  get_prop body "membership" = inr membership → truthy membership = true →
  get_prop membership "user" = inr user → truthy user = true →
  get_prop membership "role" = inr role → truthy role = true →
  get_prop user "login" = inr login →
  is_primitive login = true → is_primitive role = true →
  result (createPermitUserAssignRole api body w) = inr tt ∧
  trace (after (createPermitUserAssignRole api body w)) =
    trace w ++
    CreateUser login ::
    match createUser api login (permit w) with
    | (inr userResponse, _) =>
        match get_prop userResponse "id" with
        | inr userId => [AssignRole userId role "default"]
        | inl _ => []
        end
    | (inl _, _) => []
    end.
Proof.
  intros Hm Tm Hu Tu Hr Tr Hl _ _.
  unfold createPermitUserAssignRole, permit_api_createUser,
    permit_api_assignRole.
  run. rewrite Hm. simpl. rewrite Tm. simpl.
  rewrite Hu. simpl. rewrite Tu. simpl. rewrite Hr. simpl. rewrite Tr. simpl.
  rewrite Hl. simpl.
  destruct (createUser api login (permit w)) as [[e|userResponse] p]; simpl;
    [done|].
  destruct (get_prop userResponse "id") as [e|userId]; simpl; [done|].
  destruct (assignRole api userId role "default" p) as [[e|r] p']; simpl.
  - by rewrite <- app_assoc.
  - by rewrite <- app_assoc.
Qed.

(** X6: [removePermitUser] on a body that passes its guard and whose login
    is a primitive makes exactly one backend call, [deleteUser] with [membership.user.login], and resolves
    whether that call resolves or rejects. *)
Theorem removePermitUser_calls (body membership user login : value)
    (w : world Pdp) :
  get_prop body "membership" = inr membership → truthy membership = true →
  get_prop membership "user" = inr user → truthy user = true →
  get_prop user "login" = inr login →
  is_primitive login = true →
  result (removePermitUser api body w) = inr tt ∧
  trace (after (removePermitUser api body w)) = trace w ++ [DeleteUser login].
Proof.
  intros Hm Tm Hu Tu Hl _.
  unfold removePermitUser, permit_api_deleteUser.
  run. rewrite Hm. simpl. rewrite Tm. simpl.
  rewrite Hu. simpl. rewrite Tu. simpl. rewrite Hl. simpl.
  by destruct (deleteUser api login (permit w)) as [[e|r] p].
Qed.

(** X7: when the guard of a delivery function fires, the function throws
    "Invalid membership data" before it prints anything or calls the
    backend: the world is exactly as before. *)
Theorem guard_throws_before_any_effect (body a : value) (w : world Pdp) :
  get_prop body "action" = inr a →
  (has_grant_data body = false →
   createPermitUserAssignRole api body w =
     Outcome (inl (Error "Invalid membership data")) w []) ∧
  (has_user_data body = false →
   removePermitUser api body w =
     Outcome (inl (Error "Invalid membership data")) w []).
Proof.
  intros Ha. split; intros Hg.
  - by apply (createPermitUserAssignRole_invalid api body a).
  - by apply (removePermitUser_invalid api body a).
Qed.

(** *** One record *)

Lemma processMembershipEvent_unreadable (k : string) (body : value)
    (err : error) (w : world Pdp) :
  get_prop body "action" = inl err →
  processMembershipEvent api k body w = Outcome (inl err) w [].
Proof. intros Ha. unfold processMembershipEvent. run. by rewrite Ha. Qed.

(** X8: [processMembershipEvent] touches no record but its own, whatever
    the body and the backend: every other key holds what it held, and the
    clock is not moved. *)
Theorem processMembershipEvent_other_keys (k k' : string) (body : value)
    (w : world Pdp) :
  k ≠ k' →
  redis (after (processMembershipEvent api k body w)) !! k' = redis w !! k' ∧
  clock (after (processMembershipEvent api k body w)) = clock w.
Proof.
  intros Hne. destruct (get_prop body "action") as [err|a] eqn:Ha.
  { by rewrite (processMembershipEvent_unreadable k body err w Ha). }
  destruct (processMembershipEvent_effect api k body a w Ha) as (_ & -> & ->).
  split; [|done].
  destruct (removes_record body); [by rewrite lookup_delete_ne|done].
Qed.

(** X9: an [action] that is truthy but none of the three known strings
    takes the [default] case: a warning is printed, no backend call is
    made, and the record is deleted. *)
Theorem unhandled_action_warned_and_deleted (k : string) (body a : value)
    (w : world Pdp) :
  get_prop body "action" = inr a →
  truthy a = true →
  strict_eq_str a "member_invited" = false →
  strict_eq_str a "member_added" = false →
  strict_eq_str a "member_removed" = false →
  processMembershipEvent api k body w =
    Outcome (inr tt)
      (World (delete k (redis w)) (clock w) (permit w) (trace w))
      [Console LWarn [Txt "Unhandled action type:"; Val a]].
Proof.
  intros Ha Ta H1 H2 H3. unfold processMembershipEvent, switch_action.
  run. rewrite Ha. simpl. rewrite Ta. simpl. by rewrite H1, H2, H3.
Qed.

(** X10: a stored body whose [action] is falsy (the route stores such
    bodies before it answers 400) is only reported as "Invalid event":
    processing leaves the world as it was, and no sweep ever deletes the
    record. *)
Theorem falsy_action_record_lingers (k : string) (e : entry) (a : value)
    (w : world Pdp) (delays : list Z) :
  store_ok w →
  redis w !! k = Some e →
  get_prop (payload e) "action" = inr a →
  truthy a = false →
  processMembershipEvent api k (payload e) w =
    Outcome (inr tt) w [Console LError [Txt "Invalid event: "; Txt k]] ∧
  redis (run_sweeps api delays w) !! k = Some e.
Proof.
  intros Hok Hk Ha Ta. split.
  - unfold processMembershipEvent. run. rewrite Ha. simpl. by rewrite Ta.
  - apply run_sweeps_kept; [done..|]. unfold removes_record.
    by rewrite Ha, Ta.
Qed.

(** A body that does not lead to [redis.del] leaves the whole world as it
    was. *)
Lemma processMembershipEvent_kept (k : string) (body a : value)
    (w : world Pdp) :
  get_prop body "action" = inr a →
  removes_record body = false →
  after (processMembershipEvent api k body w) = w.
Proof.
  intros Ha Hrm. unfold removes_record in Hrm. rewrite Ha in Hrm.
  unfold processMembershipEvent, switch_action. run. rewrite Ha. simpl.
  destruct (truthy a); simpl in *; [|done].
  destruct (strict_eq_str a "member_invited"); simpl; [done|].
  destruct (strict_eq_str a "member_added"); simpl.
  { by rewrite (createPermitUserAssignRole_invalid api body a w Ha Hrm). }
  destruct (strict_eq_str a "member_removed"); simpl; [|done].
  by rewrite (removePermitUser_invalid api body a w Ha Hrm).
Qed.

(** *** The store does not influence what is sent to the backend *)

Lemma blind_lift {A} (r : error + A) : blind (lift (Pdp:=Pdp) r).
Proof. by intros w1 w2 H. Qed.

Lemma blind_ret {A} (a : A) : blind (ret (Pdp:=Pdp) a).
Proof. by intros w1 w2 H. Qed.

Lemma blind_throw {A} (e : error) : blind (throw (Pdp:=Pdp) (A:=A) e).
Proof. by intros w1 w2 H. Qed.

Lemma blind_console_log (a : list log_arg) : blind (console_log (Pdp:=Pdp) a).
Proof. by intros w1 w2 H. Qed.

Lemma blind_console_warn (a : list log_arg) :
  blind (console_warn (Pdp:=Pdp) a).
Proof. by intros w1 w2 H. Qed.

Lemma blind_console_error (a : list log_arg) :
  blind (console_error (Pdp:=Pdp) a).
Proof. by intros w1 w2 H. Qed.

Lemma blind_bind {A C} (m : M Pdp A) (f : A → M Pdp C) :
  blind m → (∀ a, blind (f a)) → blind (bind m f).
Proof.
  intros Hm Hf w1 w2 H. destruct (Hm w1 w2 H) as (Hr & Hp & Hb).
  unfold bind.
  destruct (m w1) as [[e1|a1] w1' o1], (m w2) as [[e2|a2] w2' o2];
    simpl in *; simplify_eq; [done|].
  destruct (Hf a2 w1' w2' Hb) as (Hr' & Hp' & Hb').
  destruct (f a2 w1') as [r1 w1'' o1'], (f a2 w2') as [r2 w2'' o2'].
  simpl in *. by subst.
Qed.

Lemma blind_try_catch {A} (m : M Pdp A) (h : error → M Pdp A) :
  blind m → (∀ e, blind (h e)) → blind (try_catch m h).
Proof.
  intros Hm Hh w1 w2 H. destruct (Hm w1 w2 H) as (Hr & Hp & Hb).
  unfold try_catch.
  destruct (m w1) as [[e1|a1] w1' o1], (m w2) as [[e2|a2] w2' o2];
    simpl in *; simplify_eq; [|done].
  destruct (Hh e2 w1' w2' Hb) as (Hr' & Hp' & Hb').
  destruct (h e2 w1') as [r1 w1'' o1'], (h e2 w2') as [r2 w2'' o2'].
  simpl in *. by subst.
Qed.

Lemma blind_permit_api_createUser (key : value) :
  blind (permit_api_createUser api key).
Proof.
  intros w1 w2 [Hp Ht]. unfold permit_api_createUser. rewrite Hp, Ht.
  by destruct (createUser api key (permit w2)).
Qed.

Lemma blind_permit_api_assignRole (user role : value) (tenant : string) :
  blind (permit_api_assignRole api user role tenant).
Proof.
  intros w1 w2 [Hp Ht]. unfold permit_api_assignRole. rewrite Hp, Ht.
  by destruct (assignRole api user role tenant (permit w2)).
Qed.

Lemma blind_permit_api_deleteUser (key : value) :
  blind (permit_api_deleteUser api key).
Proof.
  intros w1 w2 [Hp Ht]. unfold permit_api_deleteUser. rewrite Hp, Ht.
  by destruct (deleteUser api key (permit w2)).
Qed.

Ltac blind :=
  repeat first
    [ apply blind_lift | apply blind_ret | apply blind_throw
    | apply blind_console_log | apply blind_console_warn
    | apply blind_console_error | apply blind_permit_api_createUser
    | apply blind_permit_api_assignRole | apply blind_permit_api_deleteUser
    | apply blind_bind; [|intros ?] | apply blind_try_catch; [|intros ?]
    | match goal with |- blind (if ?b then _ else _) => destruct b end ].

Lemma blind_switch_action (action body : value) :
  blind (switch_action api action body).
Proof.
  unfold switch_action, createPermitUserAssignRole, removePermitUser. blind.
Qed.

(** Deleting the record and logging a caught error do not reach the
    backend. *)
Lemma processMembershipEvent_backend (k : string) (body a : value)
    (w : world Pdp) :
  get_prop body "action" = inr a →
  truthy a = true →
  same_backend (after (processMembershipEvent api k body w))
               (after (switch_action api a body w)).
Proof.
  intros Ha Ta. unfold processMembershipEvent. run. rewrite Ha. simpl.
  rewrite Ta. simpl.
  by destruct (switch_action api a body w) as [[e|[|]] w' out].
Qed.

Lemma post_github_membership_index_backend (body a : value) (w : world Pdp) :
  get_prop body "action" = inr a →
  truthy a = true →
  same_backend (after (post_github_membership_index api body w))
               (after (switch_action api a body w)).
Proof.
  intros Ha Ta. unfold post_github_membership_index, switch_action. run.
  rewrite Ha. simpl. rewrite Ta. simpl.
  destruct (strict_eq_str a "member_invited"); simpl; [done|].
  destruct (strict_eq_str a "member_added"); simpl.
  { by destruct (createPermitUserAssignRole api body w) as [[e|[]] w' out]. }
  destruct (strict_eq_str a "member_removed"); simpl; [|done].
  by destruct (removePermitUser api body w) as [[e|[]] w' out].
Qed.

(** X4: putting the store in front of the delivery changed nothing of what
    reaches the backend. On every request whose [action] can be read, the
    route of the final listing and the route of [index.js] leave the
    backend in the same state after the same sequence of backend calls. *)
Theorem store_does_not_change_backend_calls (body a : value)
    (w : world Pdp) :
  get_prop body "action" = inr a →
  same_backend (after (post_github_membership api body w))
               (after (post_github_membership_index api body w)).
Proof.
  intros Ha. destruct (truthy a) eqn:Ta.
  2:{ unfold post_github_membership, post_github_membership_index. run.
      rewrite Ha. simpl. by rewrite Ta. }
  destruct (post_github_membership_index_backend body a w Ha Ta) as [Hp Ht].
  unfold same_backend. rewrite Hp, Ht. clear Hp Ht.
  unfold post_github_membership. run. rewrite Ha. simpl. rewrite Ta. simpl.
  match goal with
  | |- context [processMembershipEvent api ?i body ?w1] =>
      pose proof (processMembershipEvent_backend i body a w1 Ha Ta) as Hb;
      destruct (blind_switch_action a body w1 w) as (_ & _ & Hb');
        [done|];
      destruct (processMembershipEvent api i body w1) as [[e|[]] w' out]
  end; simpl in *; destruct Hb as [-> ->]; exact Hb'.
Qed.

(** *** Passes and sweeps *)

(** X12: the store left by a pass does not depend on the order in which
    [redis.keys] returned the keys. *)
Theorem pass_order_is_irrelevant (keys keys' : list string) (w : world Pdp) :
  store_ok w →
  keys ≡ₚ keys' →
  redis (after (retry_each api keys w)) =
  redis (after (retry_each api keys' w)).
Proof.
  intros Hok Hperm. apply map_eq. intros k.
  destruct (retry_each_effect api keys w Hok) as (_ & _ & ->).
  destruct (retry_each_effect api keys' w Hok) as (_ & _ & ->).
  destruct (redis w !! k) as [e|]; [|done].
  rewrite (bool_decide_ext (k ∈ keys) (k ∈ keys')); [done|].
  by rewrite Hperm.
Qed.

(** X13: sweeps only delete. After any number of timer firings every key
    is either absent or holds exactly the entry it held before: no record is
    created, rewritten or given a new expiry. *)
Theorem sweeps_only_delete (delays : list Z) (k : string) (w : world Pdp) :
  store_ok w →
  redis (run_sweeps api delays w) !! k = None ∨
  redis (run_sweeps api delays w) !! k = redis w !! k.
Proof.
  revert w. induction delays as [|d ds IH]; intros w Hok; [by right|].
  simpl.
  assert (store_ok (advance d w)) as Hok' by by apply store_ok_advance.
  destruct (retry_sweep_effect api (advance d w) Hok') as (_ & _ & Hl).
  destruct (IH (after (retry_sweep api (advance d w))))
    as [Hn|He]; [by apply retry_sweep_store_ok|by left|].
  rewrite He, Hl. simpl. destruct (redis w !! k) as [e|]; [|by left].
  case_match; [by left|by right].
Qed.

(** A pass over keys none of which leads to [redis.del] leaves the world
    as it was. *)
Lemma retry_each_noop (keys : list string) (w : world Pdp) :
  store_ok w →
  (∀ k e, k ∈ keys → redis w !! k = Some e → live (clock w) e = true →
          removes_record (payload e) = false) →
  after (retry_each api keys w) = w.
Proof.
  intros Hok. induction keys as [|key rest IH]; intros Hkeep; [done|].
  cbn [retry_each].
  rewrite (bind_after (redis_get key)). unfold redis_get.
  cbn [result after].
  assert (∀ step : M Pdp unit,
            step =
              match
                match redis w !! key with
                | Some e => if live (clock w) e then Some (payload e) else None
                | None => None
                end
              with
              | Some body => processMembershipEvent api key body
              | None => ret tt
              end →
            result (step w) = inr tt ∧ after (step w) = w) as Hstep.
  { intros step ->. destruct (redis w !! key) as [e|] eqn:Hkey; [|done].
    destruct (live (clock w) e) eqn:Hlive; [|done].
    destruct (Hok key e Hkey) as [a Ha].
    destruct (processMembershipEvent_effect api key (payload e) a w Ha)
      as (Hr & _ & _).
    split; [done|]. apply (processMembershipEvent_kept key _ a); [done|].
    apply (Hkeep key e); [apply list_elem_of_here|done..]. }
  match goal with
  | |- context [bind ?m (λ _, retry_each api rest)] => set (step := m)
  end.
  destruct (Hstep step eq_refl) as [Hr Ha].
  rewrite (bind_after step), Hr, Ha. apply IH.
  intros k e Hin. apply Hkeep. by apply list_elem_of_further.
Qed.

(** X14: retrying changes nothing. Once one sweep has run, a further sweep
    any time later (with no request in between) leaves the entire world as
    it finds it: no record is deleted and the backend is not called. *)
Theorem second_sweep_changes_nothing (d : Z) (w : world Pdp) :
  store_ok w →
  (0 ≤ d)%Z →
  after (retry_sweep api (advance d (after (retry_sweep api w)))) =
  advance d (after (retry_sweep api w)).
Proof.
  intros Hok Hd.
  destruct (retry_sweep_effect api w Hok) as (_ & Hc & Hl).
  pose proof (retry_sweep_store_ok api w Hok) as Hok1.
  set (w1 := after (retry_sweep api w)) in *.
  destruct (retry_sweep_unfold api (advance d w1)) as (_ & -> & _).
  apply retry_each_noop; [by apply store_ok_advance|].
  intros k e Hin Hk Hlive. simpl in Hk, Hlive.
  pose proof (event_keys_elem k e (advance d w1) Hk) as Hb.
  rewrite bool_decide_eq_true_2 in Hb by done. simpl in Hb.
  symmetry in Hb. apply andb_true_iff in Hb as [Hpat _].
  rewrite Hl in Hk. destruct (redis w !! k) as [e'|]; [|done].
  destruct (event_pattern k && live (clock w) e' && removes_record (payload e'))
    eqn:Hdel; [done|].
  injection Hk as ->. rewrite Hpat in Hdel. simpl in Hdel.
  assert (live (clock w) e = true) as Hlive0.
  { unfold live in *. rewrite Hc in Hlive. apply Z.leb_le in Hlive.
    apply Z.leb_le. lia. }
  rewrite Hlive0 in Hdel. done.
Qed.

(** *** From the route to the sweeps *)

Lemma event_pattern_eventId (now : Z) : event_pattern (eventId now) = true.
Proof.
  unfold event_pattern, eventId. generalize (pretty now). intros s.
  simpl. destruct s; reflexivity.
Qed.

(** The store after the route has run. *)
Lemma post_github_membership_store (body a : value) (w : world Pdp) :
  get_prop body "action" = inr a →
  clock (after (post_github_membership api body w)) = clock w ∧
  (redis (after (post_github_membership api body w)) =
     <[eventId (clock w) := Entry body (clock w + 86400 * 1000)]> (redis w) ∨
   redis (after (post_github_membership api body w)) =
     delete (eventId (clock w))
       (<[eventId (clock w) := Entry body (clock w + 86400 * 1000)]>
          (redis w))).
Proof.
  intros Ha. unfold post_github_membership. run. rewrite Ha. simpl.
  destruct (truthy a); simpl; [|by auto].
  match goal with
  | |- context [processMembershipEvent api ?i body ?w1] =>
      destruct (processMembershipEvent_effect api i body a w1 Ha)
        as (Hr & Hc & Hs);
      destruct (processMembershipEvent api i body w1) as [[e|[]] w' out]
  end; simpl in *; [done|].
  rewrite Hc, Hs. split; [done|]. destruct (removes_record body); auto.
Qed.

(** X15: a record that the route stored and did not delete is found by
    [redis.keys("event:*")] at any moment up to its expiry, so every sweep
    in that window attempts it. *)
Theorem pending_record_is_listed (body a : value) (e : entry) (d : Z)
    (w : world Pdp) :
  get_prop body "action" = inr a →
  redis (after (post_github_membership api body w)) !! eventId (clock w)
    = Some e →
  (d ≤ 86400 * 1000)%Z →
  eventId (clock w)
    ∈ event_keys (advance d (after (post_github_membership api body w))).
Proof.
  intros Ha Hk Hd.
  destruct (post_github_membership_store body a w Ha) as [Hc Hs].
  assert (e = Entry body (clock w + 86400 * 1000)) as ->.
  { destruct Hs as [Hs|Hs]; rewrite Hs in Hk.
    - rewrite lookup_insert_eq in Hk. by injection Hk.
    - by rewrite lookup_delete_eq in Hk. }
  pose proof (event_keys_elem (eventId (clock w)) _
                (advance d (after (post_github_membership api body w))) Hk)
    as Hb.
  rewrite event_pattern_eventId in Hb. simpl in Hb.
  assert (live (clock (after (post_github_membership api body w)) + d)
            (Entry body (clock w + 86400 * 1000)) = true) as Hlive.
  { unfold live. simpl. rewrite Hc. apply Z.leb_le. lia. }
  rewrite Hlive in Hb. by apply bool_decide_eq_true in Hb.
Qed.

(** C6, amended: the route stores a request under the identifier made from
    its [Date.now()] reading and touches no other key; the identifiers of
    two requests are equal exactly when the two readings are; and a request
    handled at the same reading as an earlier one takes over its key: after
    it, the key holds the later body or nothing, never the earlier record. *)
Theorem intake_key_is_the_clock_reading (b1 b2 a1 a2 : value)
    (w1 w2 : world Pdp) :
  get_prop b1 "action" = inr a1 →
  get_prop b2 "action" = inr a2 →
  (∀ k, k ≠ eventId (clock w1) →
        redis (after (post_github_membership api b1 w1)) !! k
        = redis w1 !! k) ∧
  (truthy a1 = false →
   redis (after (post_github_membership api b1 w1)) !! eventId (clock w1)
   = Some (Entry b1 (clock w1 + 86400 * 1000))) ∧
  (eventId (clock w1) = eventId (clock w2) ↔ clock w1 = clock w2) ∧
  (redis (after (post_github_membership api b2
                   (after (post_github_membership api b1 w1))))
     !! eventId (clock w1) = None ∨
   redis (after (post_github_membership api b2
                   (after (post_github_membership api b1 w1))))
     !! eventId (clock w1) = Some (Entry b2 (clock w1 + 86400 * 1000))).
Proof.
  intros Ha1 Ha2.
  destruct (post_github_membership_store b1 a1 w1 Ha1) as [Hc1 Hs1].
  split; [|split; [|split]].
  - intros k Hk. destruct Hs1 as [-> | ->].
    + by rewrite lookup_insert_ne.
    + rewrite lookup_delete_ne by done. by rewrite lookup_insert_ne.
  - intros Ta. unfold post_github_membership. run. rewrite Ha1. simpl.
    rewrite Ta. simpl. by rewrite lookup_insert_eq.
  - split; [|by intros ->]. unfold eventId. intros H.
    apply (inj (String.app "event:")) in H. by apply (inj pretty) in H.
  - destruct (post_github_membership_store b2 a2
                (after (post_github_membership api b1 w1)) Ha2) as [_ Hs2].
    rewrite Hc1 in Hs2. destruct Hs2 as [-> | ->].
    + right. by rewrite lookup_insert_eq.
    + left. by rewrite lookup_delete_eq.
Qed.

(** *** A server life *)

Lemma kept_well_store_ok (w : world Pdp) : kept_well w → store_ok w.
Proof. intros H k e Hk. by destruct (H k e Hk). Qed.

Lemma recovery_replay_after (port : Z) (w : world Pdp) :
  after (recovery_replay api port w) = after (retry_each api (event_keys w) w).
Proof.
  unfold recovery_replay, bind, console_log, redis_keys.
  rewrite replay_each_retry_each.
  by destruct (retry_each api (event_keys w) w) as [[e|[]] w' out].
Qed.

Lemma retry_each_kept_well (keys : list string) (w : world Pdp) :
  kept_well w → kept_well (after (retry_each api keys w)).
Proof.
  intros Hw.
  destruct (retry_each_effect api keys w (kept_well_store_ok w Hw))
    as (_ & Hc & Hl).
  intros k e. rewrite Hl, Hc. destruct (redis w !! k) as [e'|] eqn:Hk; [|done].
  case_match; [done|]. intros [= <-]. by apply Hw.
Qed.

Lemma handle_kept_well (ev : event) (w : world Pdp) :
  kept_well w → kept_well (handle api ev w).
Proof.
  intros Hw. destruct ev as [body| |ms]; simpl.
  - destruct (get_prop body "action") as [err|a] eqn:Ha.
    { unfold post_github_membership. run. by rewrite Ha. }
    destruct (post_github_membership_store body a w Ha) as [Hc Hs].
    assert (kept_well
              (World (<[eventId (clock w) :=
                          Entry body (clock w + 86400 * 1000)]> (redis w))
                     (clock w) (permit w) (trace w))) as Hw1.
    { intros k e. simpl.
      intros [[<- <-]|[_ Hk]]%lookup_insert_Some; [|by apply Hw].
      simpl. split; [by eexists|]. split; [apply event_pattern_eventId|lia]. }
    intros k e. rewrite Hc. destruct Hs as [-> | ->].
    + apply Hw1.
    + intros [_ Hk]%lookup_delete_Some. by apply Hw1.
  - destruct (retry_sweep_unfold api w) as (_ & -> & _).
    by apply retry_each_kept_well.
  - intros k e Hk. destruct (Hw k e Hk) as (Ha & Hp & He).
    split; [done|]. split; [done|]. simpl. lia.
Qed.

(** X16: what a server life keeps true of the store. Starting from a store
    whose bodies can be read, whose keys match ["event:*"] and whose
    entries expire at most a day ahead, the replay followed by any sequence
    of requests, timer firings and passing time leaves a store with the same
    three properties. *)
Theorem serve_keeps_store_well (port : Z) (events : list event)
    (w : world Pdp) :
  kept_well w →
  kept_well (serve api port events w).
Proof.
  intros Hw. unfold serve. rewrite recovery_replay_after.
  pose proof (retry_each_kept_well (event_keys w) w Hw) as Hw0.
  revert Hw0. generalize (after (retry_each api (event_keys w) w)).
  induction events as [|ev evs IH]; intros w0 Hw0; [done|].
  simpl. by apply IH, handle_kept_well.
Qed.

Lemma kept_well_boot (p : Pdp) (now : Z) : kept_well (boot p now).
Proof. intros k e. unfold boot. simpl. by rewrite lookup_empty. Qed.

(** X17: sweeps leave alone every key that does not match ["event:*"]:
    after any number of timer firings such a key holds what it held. *)
Theorem sweeps_leave_other_keys (delays : list Z) (k : string)
    (w : world Pdp) :
  store_ok w →
  event_pattern k = false →
  redis (run_sweeps api delays w) !! k = redis w !! k.
Proof.
  intros Hok Hpat. revert w Hok.
  induction delays as [|d ds IH]; intros w Hok; [done|].
  simpl.
  assert (store_ok (advance d w)) as Hok' by by apply store_ok_advance.
  rewrite IH by by apply retry_sweep_store_ok.
  destruct (retry_sweep_effect api (advance d w) Hok') as (_ & _ & ->).
  simpl. rewrite Hpat. by destruct (redis w !! k).
Qed.

End RelayExtras.

(** ** The further properties on the sample worlds *)

Lemma index_route_answer_witness :
  result (post_github_membership_index down_api dave_no_role (boot tt 1000)) =
    inr (Response 500 ("error", "Internal server error")).
Proof.
  apply (index_route_answer down_api dave_no_role (VStr "member_added")
           (boot tt 1000)); reflexivity.
Defined.

Lemma store_does_not_change_backend_calls_witness :
  same_backend
    (after (post_github_membership up_api alice_added (boot [] 1000)))
    (after (post_github_membership_index up_api alice_added (boot [] 1000))).
Proof.
  apply (store_does_not_change_backend_calls up_api alice_added
           (VStr "member_added") (boot [] 1000)).
  reflexivity.
Defined.

Lemma createPermitUserAssignRole_calls_witness :
  result (createPermitUserAssignRole up_api alice_added (boot [] 1000))
    = inr tt ∧
  trace (after (createPermitUserAssignRole up_api alice_added (boot [] 1000)))
    = [CreateUser (VStr "alice");
       AssignRole (VStr "alice") (VStr "admin") "default"].
Proof.
  apply (createPermitUserAssignRole_calls up_api alice_added
           (VObj [("user", VObj [("login", VStr "alice")]);
                  ("role", VStr "admin")])
           (VObj [("login", VStr "alice")]) (VStr "admin") (VStr "alice")
           (boot [] 1000)); reflexivity.
Defined.

Lemma removePermitUser_calls_witness :
  result (removePermitUser down_api bob_removed (boot tt 1000)) = inr tt ∧
  trace (after (removePermitUser down_api bob_removed (boot tt 1000)))
    = [DeleteUser (VStr "bob")].
Proof.
  apply (removePermitUser_calls down_api bob_removed
           (VObj [("user", VObj [("login", VStr "bob")])])
           (VObj [("login", VStr "bob")]) (VStr "bob") (boot tt 1000));
    reflexivity.
Defined.

Lemma guard_throws_before_any_effect_witness :
  createPermitUserAssignRole down_api dave_no_role dave_pending =
    Outcome (inl (Error "Invalid membership data")) dave_pending [].
Proof.
  apply (proj1 (guard_throws_before_any_effect down_api dave_no_role
                  (VStr "member_added") dave_pending eq_refl)).
  reflexivity.
Defined.

Lemma processMembershipEvent_other_keys_witness :
  redis (after (processMembershipEvent up_api "event:1002" alice_added
                  three_pending)) !! "event:1001"
  = redis three_pending !! "event:1001" ∧
  clock (after (processMembershipEvent up_api "event:1002" alice_added
                  three_pending))
  = clock three_pending.
Proof.
  apply (processMembershipEvent_other_keys up_api "event:1002" "event:1001"
           alice_added three_pending).
  discriminate.
Defined.

Lemma unhandled_action_warned_and_deleted_witness :
  processMembershipEvent down_api "event:1000" erin_edited
    (with_record "event:1000" erin_edited (boot tt 1000)) =
  Outcome (inr tt)
    (World (delete "event:1000"
              (redis (with_record "event:1000" erin_edited (boot tt 1000))))
           1000 tt [])
    [Console LWarn [Txt "Unhandled action type:"; Val (VStr "member_edited")]].
Proof.
  apply (unhandled_action_warned_and_deleted down_api "event:1000" erin_edited
           (VStr "member_edited")
           (with_record "event:1000" erin_edited (boot tt 1000)));
    reflexivity.
Defined.

Lemma falsy_action_record_lingers_witness :
  processMembershipEvent down_api "event:1000" no_action no_action_pending =
    Outcome (inr tt) no_action_pending
      [Console LError [Txt "Invalid event: "; Txt "event:1000"]] ∧
  redis (run_sweeps down_api [300000; 300000]%Z no_action_pending)
    !! "event:1000"
  = Some (Entry no_action 86401000).
Proof.
  apply (falsy_action_record_lingers down_api "event:1000"
           (Entry no_action 86401000) VUndefined no_action_pending
           [300000; 300000]%Z).
  - apply (store_ok_with_record _ _ VUndefined); [reflexivity|].
    apply store_ok_boot.
  - vm_compute. reflexivity.
  - reflexivity.
  - reflexivity.
Defined.

Lemma three_pending_store_ok : store_ok three_pending.
Proof.
  apply (store_ok_with_record _ _ (VStr "member_added")); [reflexivity|].
  apply (store_ok_with_record _ _ (VStr "member_invited")); [reflexivity|].
  apply (store_ok_with_record _ _ (VStr "member_added")); [reflexivity|].
  apply store_ok_boot.
Qed.

Lemma pass_order_is_irrelevant_witness :
  redis (after (retry_each up_api ["event:1000"; "event:1002"] three_pending))
  = redis (after (retry_each up_api ["event:1002"; "event:1000"]
                    three_pending)).
Proof.
  apply (pass_order_is_irrelevant up_api ["event:1000"; "event:1002"]
           ["event:1002"; "event:1000"] three_pending).
  - apply three_pending_store_ok.
  - apply perm_swap.
Defined.

Lemma sweeps_only_delete_witness :
  redis (run_sweeps up_api [300000; 300000]%Z three_pending) !! "event:1001"
    = None ∨
  redis (run_sweeps up_api [300000; 300000]%Z three_pending) !! "event:1001"
    = redis three_pending !! "event:1001".
Proof.
  apply (sweeps_only_delete up_api [300000; 300000]%Z "event:1001"
           three_pending).
  apply three_pending_store_ok.
Defined.

Lemma second_sweep_changes_nothing_witness :
  after (retry_sweep up_api
           (advance 300000 (after (retry_sweep up_api three_pending))))
  = advance 300000 (after (retry_sweep up_api three_pending)).
Proof.
  apply (second_sweep_changes_nothing up_api 300000 three_pending).
  - apply three_pending_store_ok.
  - lia.
Defined.

Lemma pending_record_is_listed_witness :
  eventId 1000
    ∈ event_keys
        (advance 300000
           (after (post_github_membership down_api carol_invited
                     (boot tt 1000)))).
Proof.
  apply (pending_record_is_listed down_api carol_invited
           (VStr "member_invited") (Entry carol_invited 86401000) 300000
           (boot tt 1000)).
  - reflexivity.
  - vm_compute. reflexivity.
  - lia.
Defined.

Lemma serve_keeps_store_well_witness :
  kept_well
    (serve up_api 4000
       [Request dave_no_role; Elapse 300000; TimerFires;
        Request alice_added; Request VNull]
       (boot [] 1000)).
Proof.
  apply (serve_keeps_store_well up_api 4000
           [Request dave_no_role; Elapse 300000; TimerFires;
            Request alice_added; Request VNull]
           (boot [] 1000)).
  apply kept_well_boot.
Defined.

Lemma sweeps_leave_other_keys_witness :
  redis (run_sweeps up_api [300000; 300000]%Z shared_store) !! "session:42"
  = redis shared_store !! "session:42".
Proof.
  apply (sweeps_leave_other_keys up_api [300000; 300000]%Z "session:42"
           shared_store).
  - intros k e. unfold shared_store, with_record. simpl.
    intros [[_ <-]|[_ [[_ <-]|[_ H]]%lookup_insert_Some]]%lookup_insert_Some.
    + by eexists.
    + by eexists.
    + by rewrite lookup_empty in H.
  - reflexivity.
Defined.

Lemma intake_key_is_the_clock_reading_witness :
  redis (after (post_github_membership down_api no_action
                  (after (post_github_membership down_api carol_invited
                            (boot tt 1000)))))
    !! eventId 1000 = None ∨
  redis (after (post_github_membership down_api no_action
                  (after (post_github_membership down_api carol_invited
                            (boot tt 1000)))))
    !! eventId 1000 = Some (Entry no_action (1000 + 86400 * 1000)).
Proof.
  refine (proj2 (proj2 (proj2
    (intake_key_is_the_clock_reading down_api carol_invited no_action
       (VStr "member_invited") VUndefined (boot tt 1000) (boot tt 1000)
       _ _)))); reflexivity.
Defined.
